(** * CRM_BOLT: tenant provisioning, login validation and the invoice list

    Shallow embedding of
    - the SQL migration defining [handle_new_auth_user] (trigger on
      [auth.users]) and [validate_login_access], and
    - the view-model of [src/components/billing/InvoiceList.tsx]
      (category/date filtering, sorting, search, pagination, CSV export).

    The database is a finite map from schema names to [profiles] tables;
    a table is a finite map keyed by the [id] column, the key that
    [ON CONFLICT (id)] requires to be unique.  A statement that names a
    table of a schema that does not exist raises; raising is [None]. *)

From stdpp Require Import gmap strings list fin_maps.
From Stdlib Require Import ZArith Ascii Sorted.

Set Warnings "-clear-no-such-hyp".

Local Open Scope string_scope.
Local Open Scope list_scope.

(** ** Part I: the profiles partitions *)

Module Profiles.

(** A row of a [profiles] table, without its [id] column (the table key).
    Text columns are strings, timestamps are integers; no column is NULL,
    as in every row the trigger writes. *)
Record Profile := mkProfile {
  email : string;
  full_name : string;
  role : string;
  status : string;
  schema_name : string;
  created_at : Z;
  updated_at : Z
}.

Abbreviation table := (gmap string Profile).
Abbreviation Database := (gmap string (gmap string Profile)).

(** A JSON object whose members are read with [->>]: member name to text.
    A member that is absent or JSON null has no entry. *)
Abbreviation json := (gmap string string).

(** The [NEW] row of [auth.users], as far as the trigger reads it. *)
Record AuthUser := mkAuthUser {
  user_id : string;
  user_email : string;
  raw_user_meta_data : option json
}.

(** [j ->> k]; NULL when [j] is NULL or has no member [k]. *)
Definition json_text (j : option json) (k : string) : option string :=
  j ≫= (λ o, o !! k).

Fixpoint COALESCE {A} (xs : list (option A)) : option A :=
  match xs with
  | [] => None
  | Some x :: _ => Some x
  | None :: rest => COALESCE rest
  end.

(** [v_schema]: lines 19-23, on a header setting that the cast accepts:
    [headers] is the value of
    [current_setting('request.headers', true)::json], NULL when unset.
    [resolve_schema_setting] below takes the setting as it is, with the
    texts the cast rejects. *)
Definition resolve_schema (new : AuthUser) (headers : option json) : string :=
  default "public"
    (COALESCE [ json_text (raw_user_meta_data new) "schema_name";
                json_text headers "x-schema-name";
                Some "public" ]).

(** [EXISTS (SELECT 1 FROM profiles WHERE schema_name = v_schema)] on one
    table. *)
Definition exists_with_schema (t : table) (v_schema : string) : bool :=
  bool_decide (map_Exists (λ _ p, schema_name p = v_schema) t).

(** [v_role]: lines 26-36.  The function runs with [search_path = public],
    so the unqualified [profiles] is [public.profiles].  The assignment is
    one SQL expression: it is analysed as a whole before it is evaluated,
    so it raises when [public.profiles] does not exist, also when the
    metadata names the role and the subquery is never run. *)
Definition resolve_role (db : Database) (new : AuthUser) (v_schema : string)
  : option string :=
  t ← db !! "public";
  Some (match json_text (raw_user_meta_data new) "role" with
        | Some r => r
        | None => if exists_with_schema t v_schema then "user" else "admin"
        end).

(** [ON CONFLICT (id) DO UPDATE SET email, full_name, role, updated_at]:
    the other columns of the existing row stay. *)
Definition conflict_update (old : Profile) (excluded : Profile)
    (new_role : string) (now : Z) : Profile :=
  {| email := email excluded;
     full_name := full_name excluded;
     role := new_role;
     status := status old;
     schema_name := schema_name old;
     created_at := created_at old;
     updated_at := now |}.

(** [INSERT ... ON CONFLICT (id) DO UPDATE ...] on one table. *)
Definition upsert_table (t : table) (uid : string) (row : Profile)
    (new_role : string) (now : Z) : table :=
  match t !! uid with
  | None => <[uid := row]> t
  | Some old => <[uid := conflict_update old row new_role now]> t
  end.

(** [INSERT INTO schema.profiles ... ON CONFLICT (id) DO UPDATE ...]. *)
Definition upsert (schema : string) (uid : string) (row : Profile)
    (new_role : string) (now : Z) (db : Database) : option Database :=
  t ← db !! schema;
  Some (<[schema := upsert_table t uid row new_role now]> db).

Definition new_full_name (new : AuthUser) : string :=
  default "" (COALESCE [ json_text (raw_user_meta_data new) "full_name"; Some "" ]).

(** The row of the replication inserts, lines 76-93 and 103-120. *)
Definition admin_row (new : AuthUser) (schema : string) (now : Z) : Profile :=
  mkProfile (user_email new) (new_full_name new) "admin" "active" schema now now.

(** The trigger function, lines 8-131.  [now] is the transaction's [now()]. *)
Definition handle_new_auth_user (db : Database) (new : AuthUser)
    (headers : option json) (now : Z) : option Database :=
  let v_schema := resolve_schema new headers in
  v_role ← resolve_role db new v_schema;
  db1 ← upsert v_schema (user_id new)
          (mkProfile (user_email new) (new_full_name new) v_role "active"
                     v_schema now now)
          v_role now db;
  if decide (v_role = "admin") then
    db2 ← (if decide (v_schema ≠ "quimicinter")
           then upsert "quimicinter" (user_id new)
                  (admin_row new "quimicinter" now) "admin" now db1
           else Some db1);
    (if decide (v_schema ≠ "qalinkforce")
     then upsert "qalinkforce" (user_id new)
            (admin_row new "qalinkforce" now) "admin" now db2
     else Some db2)
  else Some db1.

(** One branch of the [user_info] CTE:
    [SELECT role::text, schema_name FROM t WHERE id = user_id]. *)
Definition select_by_id (t : table) (uid : string) : list (string * string) :=
  match t !! uid with
  | Some p => [(role p, schema_name p)]
  | None => []
  end.

(** The [user_info] CTE, lines 154-166: the three branches of the
    [UNION ALL] in the order they are written. *)
Definition user_info (db : Database) (uid : string)
  : option (list (string * string)) :=
  t0 ← db !! "public";
  t1 ← db !! "quimicinter";
  t2 ← db !! "qalinkforce";
  Some (select_by_id t0 uid ++ select_by_id t1 uid ++ select_by_id t2 uid)%list.

(** Lines 171-182, on the row that [SELECT ... INTO ... LIMIT 1] picked
    ([None]: no row, both variables NULL). *)
Definition access_decision (picked : option (string * string))
    (p_schema : string) : bool :=
  match picked with
  | None => false
  | Some (v_role, v_user_schema) =>
      if decide (v_role = "admin") then true
      else bool_decide (v_user_schema = p_schema)
  end.

(** [validate_login_access], lines 140-184.  [LIMIT 1] over the append of
    the three branches takes the first row produced. *)
Definition validate_login_access (db : Database) (uid p_schema : string)
  : option bool :=
  rows ← user_info db uid;
  Some (access_decision (head rows) p_schema).

(** The query has no [ORDER BY]: SQL allows [LIMIT 1] to keep any row of
    [user_info].  [may_return] holds of every result the function can
    give under that reading. *)
Definition may_return (db : Database) (uid p_schema : string) (b : bool) : Prop :=
  ∃ rows, user_info db uid = Some rows ∧
    ((rows = [] ∧ b = false) ∨
     (∃ r, r ∈ rows ∧ b = access_decision (Some r) p_schema)).

(** The partitions the functions name. *)
Definition known_tenants : list string := ["public"; "quimicinter"; "qalinkforce"].
Definition replication_set : list string := ["quimicinter"; "qalinkforce"].

Definition partitions_exist (db : Database) : Prop :=
  ∀ t, t ∈ known_tenants → is_Some (db !! t).

(** The profile of identity [uid] in partition [t], if any. *)
Definition profile_of (db : Database) (t uid : string) : option Profile :=
  db !! t ≫= (λ tb, tb !! uid).

Definition empty_db : Database :=
  <["public" := ∅]> (<["quimicinter" := ∅]> (<["qalinkforce" := ∅]> ∅)).

(** The partitions one run of the trigger writes to. *)
Definition touched (v_schema v_role t : string) : Prop :=
  t = v_schema ∨ (v_role = "admin" ∧ t ∈ replication_set).

(** The row an upsert of the trigger leaves in partition [t], given the
    row [old] that was there. *)
Definition upserted_row (new : AuthUser) (v_role t : string) (now : Z)
    (old : option Profile) : Profile :=
  let row := mkProfile (user_email new) (new_full_name new) v_role "active"
                       t now now in
  match old with
  | None => row
  | Some o => conflict_update o row v_role now
  end.

(** The rows one branch of [user_info] yields for a profile. *)
Definition rows_of (o : option Profile) : list (string * string) :=
  match o with
  | Some p => [(role p, schema_name p)]
  | None => []
  end.

(** The upserts one run of the trigger performs, in the order of the
    source: the partition, the row of the [INSERT], and the role that
    [DO UPDATE] sets. *)
Definition trigger_upserts (new : AuthUser) (v_schema v_role : string)
    (now : Z) : list (string * Profile * string) :=
  (v_schema,
   mkProfile (user_email new) (new_full_name new) v_role "active" v_schema
             now now,
   v_role) ::
  (if decide (v_role = "admin") then
     (if decide (v_schema ≠ "quimicinter")
      then [("quimicinter", admin_row new "quimicinter" now, "admin")]
      else []) ++
     (if decide (v_schema ≠ "qalinkforce")
      then [("qalinkforce", admin_row new "qalinkforce" now, "admin")]
      else [])
   else []).

(** A sequence of upserts for one identity; the first that raises ends
    the run. *)
Fixpoint run_upserts (uid : string) (now : Z)
    (ops : list (string * Profile * string)) (db : Database)
  : option Database :=
  match ops with
  | [] => Some db
  | (s, row, r) :: rest =>
      upsert s uid row r now db ≫= run_upserts uid now rest
  end.

(** The trigger fires once for each row inserted into [auth.users]
    (lines 134-137): the events are the new row, the request headers and
    the time of the insert. *)
Fixpoint provision_all (events : list (AuthUser * option json * Z))
    (db : Database) : option Database :=
  match events with
  | [] => Some db
  | (new, headers, now) :: rest =>
      handle_new_auth_user db new headers now ≫= provision_all rest
  end.

(** [current_setting('request.headers', true)]: NULL when the setting
    is not set, otherwise a text.  The cast [::json] accepts the text of
    a JSON value and raises on any other text, the empty string among
    them; [SettingObject o] is a text the cast accepts, read through
    [->>] as the object [o] (a JSON value that is not an object has no
    members). *)
Inductive HeaderSetting :=
  | SettingUnset
  | SettingInvalid
  | SettingObject (o : json).

(** The cast of line 21: [None] when it raises. *)
Definition cast_headers (setting : HeaderSetting) : option (option json) :=
  match setting with
  | SettingUnset => Some None
  | SettingInvalid => None
  | SettingObject o => Some (Some o)
  end.

(** [v_schema], lines 19-23, on the setting as it is.  [COALESCE]
    evaluates its arguments in order and stops at the first that is not
    NULL: the setting is cast only when the metadata has no
    'schema_name'. *)
Definition resolve_schema_setting (new : AuthUser) (setting : HeaderSetting)
  : option string :=
  match json_text (raw_user_meta_data new) "schema_name" with
  | Some s => Some s
  | None =>
      headers ← cast_headers setting;
      Some (default "public"
              (COALESCE [ json_text headers "x-schema-name"; Some "public" ]))
  end.

(** The trigger function, lines 8-131, on the setting as it is: the
    tenant, the role, then the upserts of [trigger_upserts]. *)
Definition on_auth_user_created (db : Database) (new : AuthUser)
    (setting : HeaderSetting) (now : Z) : option Database :=
  v_schema ← resolve_schema_setting new setting;
  v_role ← resolve_role db new v_schema;
  run_upserts (user_id new) now (trigger_upserts new v_schema v_role now) db.

(** Every profile row carries the name of the partition it is stored in. *)
Definition schema_consistent (db : Database) : Prop :=
  ∀ t u p, profile_of db t u = Some p → schema_name p = t.

Definition set_updated_at (now : Z) (p : Profile) : Profile :=
  {| email := email p; full_name := full_name p; role := role p;
     status := status p; schema_name := schema_name p;
     created_at := created_at p; updated_at := now |}.

End Profiles.

(** ** Part II: the invoice list view-model *)

Module InvoiceList.

(** Modelled from the spec: [types/billing] is not part of the sources;
    the data model gives the invoice status as the enumeration
    draft | issued | voided. *)
Inductive Status := Draft | Issued | Voided.

(** Modelled from the spec: the payment status is the enumeration
    pending | partial | paid. *)
Inductive PaymentStatus := Pending | Partial | Paid.

Record Customer := mkCustomer { customer_full_name : string }.

(** The fields of [Invoice] that the list reads; [customer] is the
    optional nested record.  Amounts are exact integers (minor units):
    comparing them is as in the code, adding them is not, since the code
    adds JS doubles and a sum of decimal amounts is rounded.  What is
    proved below about amounts is about their order and about which
    invoices a bucket holds, not about the value of a sum. *)
Record Invoice := mkInvoice {
  id : string;
  ncf : string;
  customer : option Customer;
  issue_date : string;
  total_amount : Z;
  status : Status;
  payment_status : PaymentStatus
}.

#[global] Instance Status_eq_dec : EqDecision Status.
Proof. solve_decision. Defined.
#[global] Instance PaymentStatus_eq_dec : EqDecision PaymentStatus.
Proof. solve_decision. Defined.
#[global] Instance Customer_eq_dec : EqDecision Customer.
Proof. solve_decision. Defined.
#[global] Instance Invoice_eq_dec : EqDecision Invoice.
Proof. solve_decision. Defined.

(** What the component takes from the JS runtime: [new Date(s).getTime()]
    ([None] is NaN, an invalid date) and the time value of the first day
    of the current month. *)
Record DateEnv := mkDateEnv {
  date_ms : string → option Z;
  first_of_month : Z
}.

(** The values [handleFilter] is called with; [activeFilter = ''] is
    [None]. *)
Inductive Filter := FMonth | FDraft | FPaid | FPending | FVoided | FHistory.

#[global] Instance Filter_eq_dec : EqDecision Filter.
Proof. solve_decision. Defined.

Record DateRange := mkDateRange { startDate : string; endDate : string }.

(** The keys [handleSort] is called with. *)
Inductive SortKey :=
  KNcf | KCustomer | KIssueDate | KTotalAmount | KStatus | KPaymentStatus.

#[global] Instance SortKey_eq_dec : EqDecision SortKey.
Proof. solve_decision. Defined.

Inductive Direction := asc | desc.

#[global] Instance Direction_eq_dec : EqDecision Direction.
Proof. solve_decision. Defined.

Record SortConfig := mkSortConfig { key : SortKey; direction : Direction }.

(** The component state that the list logic reads and writes. *)
Record State := mkState {
  invoices : list Invoice;
  search : string;
  currentPage : Z;
  activeFilter : option Filter;
  dateRange : DateRange;
  sortConfig : SortConfig
}.

Definition initial_state : State :=
  mkState [] "" 1 None (mkDateRange "" "") (mkSortConfig KStatus asc).

Definition itemsPerPage : Z := 30.

(** Lines 19-30. *)
Definition STATUS_ORDER (s : Status) : Z :=
  match s with Draft => 0 | Issued => 1 | Voided => 2 end.

Definition PAYMENT_STATUS_ORDER (s : PaymentStatus) : Z :=
  match s with Pending => 0 | Partial => 1 | Paid => 2 end.

(** The values the comparator compares. *)
Inductive SortVal := VNum (n : Z) | VNaN | VStr (s : string).

(** JS [a < b] on two values of one column: numbers numerically, strings
    by code unit, anything against NaN is false. *)
Definition js_lt (a b : SortVal) : bool :=
  match a, b with
  | VNum x, VNum y => (x <? y)%Z
  | VStr x, VStr y => String.ltb x y
  | _, _ => false
  end.

(** [truthy s] for a string: non-empty. *)
Definition truthy (s : string) : bool :=
  match s with EmptyString => false | _ => true end.

(** Lines 197-225: the value of the sort column. *)
Definition sort_value (env : DateEnv) (k : SortKey) (a : Invoice) : SortVal :=
  match k with
  | KStatus => VNum (STATUS_ORDER (status a))
  | KPaymentStatus => VNum (PAYMENT_STATUS_ORDER (payment_status a))
  | KCustomer =>
      VStr (match customer a with
            | Some c => if truthy (customer_full_name c)
                        then customer_full_name c else ""
            | None => ""
            end)
  | KNcf => VStr (ncf a)
  | KIssueDate =>
      match date_ms env (issue_date a) with
      | Some t => VNum t
      | None => VNaN
      end
  | KTotalAmount => VNum (total_amount a)
  end.

(** Lines 194-230: the comparator passed to [sort]. *)
Definition comparator (env : DateEnv) (cfg : SortConfig) (a b : Invoice) : Z :=
  let aValue := sort_value env (key cfg) a in
  let bValue := sort_value env (key cfg) b in
  if js_lt aValue bValue then
    (if decide (direction cfg = asc) then -1 else 1)%Z
  else if js_lt bValue aValue then
    (if decide (direction cfg = asc) then 1 else -1)%Z
  else 0%Z.

(** [Array.prototype.sort] is a stable sort (ECMAScript 2019): elements
    the comparator orders come out in that order, elements it ties keep
    their order.  Insertion from the right end is such a sort: [x] stood
    before every element of [l] and goes before the first one it does not
    exceed.  For a consistent comparator the result of a stable sort is
    unique, and this is it; the comparator of the list is consistent
    unless a sort value is NaN (an invalid [issue_date]), and then the
    engine's order is its own.  Whatever the comparator, the result is a
    rearrangement of the input. *)
Fixpoint sort_insert (cmp : Invoice → Invoice → Z) (x : Invoice)
    (l : list Invoice) : list Invoice :=
  match l with
  | [] => [x]
  | y :: l' => if (cmp x y <=? 0)%Z then x :: l else y :: sort_insert cmp x l'
  end.

Fixpoint js_sort (cmp : Invoice → Invoice → Z) (l : list Invoice)
  : list Invoice :=
  match l with
  | [] => []
  | x :: l' => sort_insert cmp x (js_sort cmp l')
  end.

(** [new Date(inv.issue_date) >= firstDayOfMonth]. *)
Definition in_current_month (env : DateEnv) (inv : Invoice) : bool :=
  match date_ms env (issue_date inv) with
  | Some t => (first_of_month env <=? t)%Z
  | None => false
  end.

(** Lines 141-146: the date range applies when both ends are set; the
    ends compare with [issue_date] as strings. *)
Definition in_date_range (r : DateRange) (inv : Invoice) : bool :=
  String.leb (startDate r) (issue_date inv) &&
  String.leb (issue_date inv) (endDate r).

Definition date_range_set (r : DateRange) : bool :=
  truthy (startDate r) && truthy (endDate r).

Definition apply_date_range (r : DateRange) (data : list Invoice) : list Invoice :=
  if date_range_set r then List.filter (in_date_range r) data else data.

(** Lines 149-190: the predicate of the default view and of each category. *)
Definition category_pred (env : DateEnv) (f : option Filter) (inv : Invoice) : bool :=
  match f with
  | None => bool_decide (status inv = Issued) || bool_decide (status inv = Draft)
  | Some FMonth => in_current_month env inv && bool_decide (status inv = Issued)
  | Some FDraft => bool_decide (status inv = Draft)
  | Some FPaid =>
      bool_decide (payment_status inv = Paid) && bool_decide (status inv = Issued)
  | Some FPending =>
      bool_decide (payment_status inv ≠ Paid) && bool_decide (status inv = Issued)
  | Some FVoided => bool_decide (status inv = Voided)
  | Some FHistory => true
  end.

(** [loadInvoices], lines 133-233: the list handed to [setInvoices] when
    the fetch returned [data]. *)
Definition loadInvoices (env : DateEnv) (st : State) (data : list Invoice)
  : list Invoice :=
  let filteredData := apply_date_range (dateRange st) data in
  let filteredData :=
    match activeFilter st with
    | Some FHistory => filteredData
    | f => List.filter (category_pred env f) filteredData
    end in
  js_sort (comparator env (sortConfig st)) filteredData.

(** The list [loadInvoices] sorts: the date range, then the category
    (the 'history' category keeps every invoice). *)
Definition before_sort (env : DateEnv) (st : State) (data : list Invoice)
  : list Invoice :=
  List.filter (category_pred env (activeFilter st))
    (apply_date_range (dateRange st) data).

(** The invoices of one status, in the order of [l]. *)
Definition by_status (s : Status) (l : list Invoice) : list Invoice :=
  List.filter (λ inv, bool_decide (status inv = s)) l.

(** The state once the fetch started by [loadInvoices] has resolved. *)
Definition loadInvoices_resolved (env : DateEnv) (data : list Invoice)
    (st : State) : State :=
  mkState (loadInvoices env st data) (search st) (currentPage st)
          (activeFilter st) (dateRange st) (sortConfig st).

(** One bucket of the monthly statistics. *)
Record Bucket := mkBucket { count : nat; total : Z }.

Definition bucket_of (l : list Invoice) : Bucket :=
  mkBucket (length l) (fold_left (λ sum inv, sum + total_amount inv)%Z l 0%Z).

(** [loadStats], lines 76-103: the month's invoices and its buckets (the
    product ranking reads line items and is left out). *)
Definition monthlyInvoices (env : DateEnv) (monthlyData : list Invoice)
  : list Invoice :=
  List.filter (in_current_month env) monthlyData.

Definition issuedInvoices (env : DateEnv) (monthlyData : list Invoice) :=
  List.filter (λ inv, bool_decide (status inv = Issued))
    (monthlyInvoices env monthlyData).

Definition paidInvoices (env : DateEnv) (monthlyData : list Invoice) :=
  List.filter (λ inv, bool_decide (status inv = Issued) &&
                      bool_decide (payment_status inv = Paid))
    (monthlyInvoices env monthlyData).

Definition pendingInvoices (env : DateEnv) (monthlyData : list Invoice) :=
  List.filter (λ inv, bool_decide (status inv = Issued) &&
                      bool_decide (payment_status inv ≠ Paid))
    (monthlyInvoices env monthlyData).

Definition voidedInvoices (env : DateEnv) (monthlyData : list Invoice) :=
  List.filter (λ inv, bool_decide (status inv = Voided))
    (monthlyInvoices env monthlyData).

Definition draftInvoices (env : DateEnv) (monthlyData : list Invoice) :=
  List.filter (λ inv, bool_decide (status inv = Draft))
    (monthlyInvoices env monthlyData).

Record Stats := mkStats {
  stat_issued : Bucket;
  stat_paid : Bucket;
  stat_pending : Bucket;
  stat_voided : Bucket;
  stat_draft : Bucket
}.

Definition loadStats (env : DateEnv) (monthlyData : list Invoice) : Stats :=
  mkStats (bucket_of (issuedInvoices env monthlyData))
          (bucket_of (paidInvoices env monthlyData))
          (bucket_of (pendingInvoices env monthlyData))
          (bucket_of (voidedInvoices env monthlyData))
          (bucket_of (draftInvoices env monthlyData)).

(** [handleSort], lines 241-249. *)
Definition handleSort (k : SortKey) (st : State) : State :=
  let d := if decide (key (sortConfig st) = k ∧ direction (sortConfig st) = asc)
           then desc else asc in
  mkState (invoices st) (search st) (currentPage st) (activeFilter st)
          (dateRange st) (mkSortConfig k d).

(** [handleFilter], lines 260-267. *)
Definition handleFilter (f : Filter) (st : State) : State :=
  mkState (invoices st) (search st) 1
          (if decide (activeFilter st = Some f) then None else Some f)
          (if decide (f ≠ FHistory) then mkDateRange "" "" else dateRange st)
          (sortConfig st).

(** The [onChange] handlers of the two date inputs, lines 629 and 636. *)
Definition setStartDate (v : string) (st : State) : State :=
  mkState (invoices st) (search st) (currentPage st) (activeFilter st)
          (mkDateRange v (endDate (dateRange st))) (sortConfig st).

Definition setEndDate (v : string) (st : State) : State :=
  mkState (invoices st) (search st) (currentPage st) (activeFilter st)
          (mkDateRange (startDate (dateRange st)) v) (sortConfig st).

(** The [onChange] handler of the search box, line 617. *)
Definition setSearch (v : string) (st : State) : State :=
  mkState (invoices st) v (currentPage st) (activeFilter st)
          (dateRange st) (sortConfig st).

Definition setCurrentPage (p : Z) (st : State) : State :=
  mkState (invoices st) (search st) p (activeFilter st)
          (dateRange st) (sortConfig st).

(** [toLowerCase] on ASCII text: it lowers the letters A-Z and nothing
    else.  JS also lowers the other cased letters, so this is the code's
    function only on strings whose characters are all ASCII
    ([ascii_only] below). *)
Definition lower_ascii (c : ascii) : ascii :=
  let n := nat_of_ascii c in
  if (65 <=? n)%nat && (n <=? 90)%nat then ascii_of_nat (n + 32) else c.

Fixpoint toLowerCase (s : string) : string :=
  match s with
  | EmptyString => EmptyString
  | String c s' => String (lower_ascii c) (toLowerCase s')
  end.

(** [s.includes(sub)]. *)
Fixpoint includes (s sub : string) : bool :=
  String.prefix sub s ||
  match s with
  | EmptyString => false
  | String _ s' => includes s' sub
  end.

(** Lines 380-383. *)
Definition matches_search (q : string) (inv : Invoice) : bool :=
  includes (toLowerCase (ncf inv)) (toLowerCase q) ||
  match customer inv with
  | Some c => includes (toLowerCase (customer_full_name c)) (toLowerCase q)
  | None => false
  end.

Definition filteredInvoices (st : State) : list Invoice :=
  List.filter (matches_search (search st)) (invoices st).

(** [l.slice(i, j)]. *)
Definition slice (l : list Invoice) (i j : Z) : list Invoice :=
  let len := Z.of_nat (length l) in
  let from := if (i <? 0)%Z then Z.max (len + i) 0 else Z.min i len in
  let to := if (j <? 0)%Z then Z.max (len + j) 0 else Z.min j len in
  take (Z.to_nat (to - from)) (drop (Z.to_nat from) l).

(** Lines 385-389. *)
Definition totalPages (st : State) : Z :=
  (Z.of_nat (length (filteredInvoices st)) + itemsPerPage - 1) / itemsPerPage.

Definition paginatedInvoices (st : State) : list Invoice :=
  slice (filteredInvoices st)
        ((currentPage st - 1) * itemsPerPage) (currentPage st * itemsPerPage).

(** [handleExport], lines 374-378: the arguments of the call of
    [exportToCSV], [None] when it is not called. *)
Definition handleExport (st : State) : option (list Invoice * string) :=
  if (0 <? length (invoices st))%nat then Some (invoices st, "invoices")
  else None.

#[global] Instance SortVal_eq_dec : EqDecision SortVal.
Proof. solve_decision. Defined.



(** The state setter [setActiveFilter]. *)
Definition setActiveFilter (f : option Filter) (st : State) : State :=
  mkState (invoices st) (search st) (currentPage st) f (dateRange st)
          (sortConfig st).

(** The two pagination buttons, lines 803 and 810 (and 830, 840). *)
Definition prevPage (st : State) : State :=
  setCurrentPage (Z.max 1 (currentPage st - 1)) st.

Definition nextPage (st : State) : State :=
  setCurrentPage (Z.min (totalPages st) (currentPage st + 1)) st.

(** The rows left in the [invoices] table by
    [supabase.from('invoices').delete().eq('id', id)]. *)
Definition delete_by_id (id0 : string) (rows : list Invoice) : list Invoice :=
  List.filter (λ inv, negb (String.eqb (id inv) id0)) rows.

(** [handleDelete], lines 355-372, on the table behind the backend client
    and the component state.  [confirmed] is the answer to
    [window.confirm], [failed] tells whether the delete request came back
    with an error (the table is then as before and nothing is reloaded). *)
Definition handleDelete (env : DateEnv) (confirmed failed : bool)
    (id0 : string) (backend : list Invoice * State) : list Invoice * State :=
  let (rows, st) := backend in
  if negb confirmed then (rows, st)
  else if failed then (rows, st)
  else let rows' := delete_by_id id0 rows in
       (rows', loadInvoices_resolved env rows' st).

(** Every character of [s] is an ASCII character (below 128). *)
Fixpoint ascii_only (s : string) : Prop :=
  match s with
  | EmptyString => True
  | String c s' => (nat_of_ascii c < 128)%nat ∧ ascii_only s'
  end.

(** [sub] occurs in [s]. *)
Definition substring_of (sub s : string) : Prop :=
  ∃ pre post, s = pre +:+ sub +:+ post.

End InvoiceList.

(** ** Part III: the product ranking of the monthly statistics *)

Module TopProducts.

Record Product := mkProduct { product_name : string }.

(** A line item, as far as the ranking reads it.  Amounts are exact
    integers as for invoices: their order is the code's, the value of a
    total is not, since the code accumulates JS doubles. *)
Record InvoiceItem := mkInvoiceItem {
  product : option Product;
  item_total_amount : Z
}.

(** [item.product?.name || '']. *)
Definition item_product (item : InvoiceItem) : string :=
  match product item with
  | Some p => product_name p
  | None => ""
  end.

(** The [Map<string, number>] of line 106: its entries in insertion
    order. *)
Fixpoint sales_get (m : list (string * Z)) (k : string) : option Z :=
  match m with
  | [] => None
  | (k', v) :: m' => if String.eqb k' k then Some v else sales_get m' k
  end.

(** [Map.set]: an existing key keeps its place, a new key goes last. *)
Fixpoint sales_set (m : list (string * Z)) (k : string) (v : Z)
  : list (string * Z) :=
  match m with
  | [] => [(k, v)]
  | (k', v') :: m' =>
      if String.eqb k' k then (k', v) :: m' else (k', v') :: sales_set m' k v
  end.

(** Lines 109-111, the body of the inner [forEach]. *)
Definition add_item (m : list (string * Z)) (item : InvoiceItem)
  : list (string * Z) :=
  let product := item_product item in
  let currentTotal := default 0%Z (sales_get m product) in
  sales_set m product (currentTotal + item_total_amount item)%Z.

(** Lines 107-113: [invoice.items?.forEach] over the month's invoices;
    the argument lists the [items] of those invoices, [None] where an
    invoice has none. *)
Definition add_invoice_items (m : list (string * Z))
    (items : option (list InvoiceItem)) : list (string * Z) :=
  match items with
  | Some l => fold_left add_item l m
  | None => m
  end.

Definition productSales (month_items : list (option (list InvoiceItem)))
  : list (string * Z) :=
  fold_left add_invoice_items month_items [].

(** [sort((a, b) => b[1] - a[1])], a stable sort as for the invoices. *)
Fixpoint sales_insert (x : string * Z) (l : list (string * Z))
  : list (string * Z) :=
  match l with
  | [] => [x]
  | y :: l' => if (y.2 - x.2 <=? 0)%Z then x :: l else y :: sales_insert x l'
  end.

Fixpoint sales_sort (l : list (string * Z)) : list (string * Z) :=
  match l with
  | [] => []
  | x :: l' => sales_insert x (sales_sort l')
  end.

(** Lines 115-118: the three best-selling products, name and total. *)
Definition topProducts (month_items : list (option (list InvoiceItem)))
  : list (string * Z) :=
  take 3 (sales_sort (productSales month_items)).

(** All line items of the month, in the order they are visited. *)
Definition all_items (month_items : list (option (list InvoiceItem)))
  : list InvoiceItem :=
  concat (map (default []) month_items).

(** What the items sold of product [k] add up to. *)
Fixpoint sum_for (k : string) (items : list InvoiceItem) : Z :=
  match items with
  | [] => 0
  | item :: rest =>
      (if String.eqb (item_product item) k then item_total_amount item else 0)
      + sum_for k rest
  end%Z.

End TopProducts.

(** ** Scenarios *)

Module Scenarios.
Import Profiles.


(** The same identity registered again, as a regular user of [public]. *)
Definition user_public : AuthUser :=
  mkAuthUser "u1" "u1@example.com"
    (Some (<["schema_name" := "public"]> (<["role" := "user"]> ∅))).

(** The scenario of the specification: an administrator of [quimicinter]. *)
Definition admin_quimicinter : AuthUser :=
  mkAuthUser "A" "a@example.com"
    (Some (<["schema_name" := "quimicinter"]> (<["role" := "admin"]> ∅))).

(** Two identities that register for [quimicinter] without a role. *)
Definition first_registrant : AuthUser :=
  mkAuthUser "r1" "r1@example.com" (Some {["schema_name" := "quimicinter"]}).

Definition second_registrant : AuthUser :=
  mkAuthUser "r2" "r2@example.com" (Some {["schema_name" := "quimicinter"]}).

(** A regular user of [quimicinter] who is later made an administrator of
    [public]. *)
Definition user_quimicinter : AuthUser :=
  mkAuthUser "u2" "old@example.com"
    (Some (<["schema_name" := "quimicinter"]> (<["role" := "user"]> ∅))).

Definition promoted_public : AuthUser :=
  mkAuthUser "u2" "new@example.com"
    (Some (<["role" := "admin"]> (<["full_name" := "Ana"]> ∅))).


(** The database after [admin_qalinkforce] registered in [empty_db] at
    time 1. *)
Definition db_admin_replicated : Database :=
  <["quimicinter" := {["u1" := mkProfile "u1@example.com" "" "admin" "active"
                                          "quimicinter" 1 1]}]>
  (<["qalinkforce" := {["u1" := mkProfile "u1@example.com" "" "admin" "active"
                                           "qalinkforce" 1 1]}]> empty_db).

(** ... and after [user_public] registered at time 2. *)
Definition db_mixed_roles : Database :=
  <["public" := {["u1" := mkProfile "u1@example.com" "" "user" "active"
                                     "public" 2 2]}]> db_admin_replicated.

(** The database after [admin_quimicinter] registered in [empty_db]. *)
Definition db_admin_quimicinter : Database :=
  <["quimicinter" := {["A" := mkProfile "a@example.com" "" "admin" "active"
                                        "quimicinter" 1 1]}]>
  (<["qalinkforce" := {["A" := mkProfile "a@example.com" "" "admin" "active"
                                         "qalinkforce" 1 1]}]> empty_db).

(** The database after [first_registrant] registered in [empty_db] at
    time 1, and after [second_registrant] followed at time 2. *)
Definition db_first_registrant : Database :=
  <["quimicinter" := {["r1" := mkProfile "r1@example.com" "" "admin" "active"
                                          "quimicinter" 1 1]}]>
  (<["qalinkforce" := {["r1" := mkProfile "r1@example.com" "" "admin" "active"
                                           "qalinkforce" 1 1]}]> empty_db).

Definition db_second_registrant : Database :=
  <["quimicinter" :=
      <["r2" := mkProfile "r2@example.com" "" "admin" "active"
                          "quimicinter" 2 2]>
      {["r1" := mkProfile "r1@example.com" "" "admin" "active"
                          "quimicinter" 1 1]}]>
  (<["qalinkforce" :=
      <["r2" := mkProfile "r2@example.com" "" "admin" "active"
                          "qalinkforce" 2 2]>
      {["r1" := mkProfile "r1@example.com" "" "admin" "active"
                          "qalinkforce" 1 1]}]> empty_db).

(** An identity without metadata, and the database after it registered
    in [empty_db] with no request header: the first profile of [public]
    is an administrator, replicated over the business units. *)
Definition bare_user : AuthUser := mkAuthUser "n" "n@example.com" None.

Definition db_bare_user : Database :=
  <["public" := {["n" := mkProfile "n@example.com" "" "admin" "active"
                                    "public" 1 1]}]>
  (<["quimicinter" := {["n" := mkProfile "n@example.com" "" "admin" "active"
                                         "quimicinter" 1 1]}]>
  (<["qalinkforce" := {["n" := mkProfile "n@example.com" "" "admin" "active"
                                         "qalinkforce" 1 1]}]> ∅)).

(** A sign-up whose tenant comes from the request header, and the
    database after it registered in [empty_db] at time 1. *)
Definition header_user : AuthUser :=
  mkAuthUser "h" "h@example.com" (Some {["role" := "user"]}).

Definition header_qalinkforce : HeaderSetting :=
  SettingObject {["x-schema-name" := "qalinkforce"]}.

Definition db_header_user : Database :=
  <["qalinkforce" := {["h" := mkProfile "h@example.com" "" "user" "active"
                                        "qalinkforce" 1 1]}]> empty_db.

(** A sign-up for a tenant that has no profiles table. *)
Definition acme_user : AuthUser :=
  mkAuthUser "x" "x@example.com" (Some {["schema_name" := "acme"]}).

(** A regular user of [quimicinter], before being made administrator. *)
Definition db_with_user : Database :=
  <["quimicinter" := {["u2" := mkProfile "old@example.com" "" "user" "active"
                                          "quimicinter" 1 1]}]> empty_db.

End Scenarios.

Module InvoiceScenarios.
Import InvoiceList.

(** A runtime in which no date parses; the month filter is not used. *)
Definition env0 : DateEnv := mkDateEnv (λ _, None) 0.

(** A runtime whose current month is March 2024: the dates of that month
    are at the first day of the month, every other date is before it. *)
Definition env_march : DateEnv :=
  mkDateEnv (λ s, if String.prefix "2024-03" s then Some 1%Z else Some 0%Z) 1.

Definition ana : option Customer := Some (mkCustomer "Ana Perez").

Definition draft_1 : Invoice :=
  mkInvoice "1" "B0100000001" ana "2024-03-01" 1000 Draft Pending.
Definition draft_2 : Invoice :=
  mkInvoice "2" "B0100000002" ana "2024-03-02" 2000 Draft Pending.
Definition issued_partial : Invoice :=
  mkInvoice "3" "B0100000003" ana "2024-03-03" 3000 Issued Partial.
Definition issued_paid : Invoice :=
  mkInvoice "4" "B0100000004" None "2024-03-04" 4000 Issued Paid.
Definition voided_1 : Invoice :=
  mkInvoice "5" "B0100000005" ana "2024-03-05" 5000 Voided Pending.

Definition fetched : list Invoice :=
  [voided_1; draft_1; issued_paid; draft_2; issued_partial].

(** The 'paid' category chosen on page 3, then both ends of the date
    range typed in. *)
Definition paid_then_dates : State :=
  setEndDate "2024-03-31"
    (setStartDate "2024-03-01"
       (handleFilter FPaid (setCurrentPage 3 initial_state))).

(** A date range typed in, then the 'draft' category chosen. *)
Definition dates_then_draft : State :=
  handleFilter FDraft
    (setEndDate "2024-03-31" (setStartDate "2024-03-01" initial_state)).

(** The fetched list on display, then a search that matches nothing. *)
Definition searched_nothing : State :=
  setCurrentPage 2
    (setSearch "zzz" (loadInvoices_resolved env0 fetched initial_state)).

(** The default view of [fetched], loaded. *)
Definition shown : State := loadInvoices_resolved env0 fetched initial_state.

End InvoiceScenarios.

Module ProductScenarios.
Import TopProducts.

Definition soap : option Product := Some (mkProduct "Jabon").
Definition bleach : option Product := Some (mkProduct "Cloro").
Definition wax : option Product := Some (mkProduct "Cera").
Definition degreaser : option Product := Some (mkProduct "Desengrasante").

(** The line items of three invoices of the month; the second invoice
    has none. *)
Definition march_items : list (option (list InvoiceItem)) :=
  [ Some [mkInvoiceItem soap 300; mkInvoiceItem bleach 500;
          mkInvoiceItem None 50];
    None;
    Some [mkInvoiceItem wax 400; mkInvoiceItem soap 300;
          mkInvoiceItem degreaser 100] ].

End ProductScenarios.

(** ** Facts about the profiles partitions *)

Section ProfilesFacts.
Import Profiles.

Implicit Types (db : Database) (new : AuthUser) (headers : option json).

Lemma upsert_Some schema uid row r now db t :
  db !! schema = Some t →
  upsert schema uid row r now db
  = Some (<[schema := upsert_table t uid row r now]> db).
Proof. intros H. unfold upsert. by rewrite H. Qed.

Lemma upsert_inv schema uid row r now db db' :
  upsert schema uid row r now db = Some db' →
  ∃ t, db !! schema = Some t ∧
       db' = <[schema := upsert_table t uid row r now]> db.
Proof.
  unfold upsert. destruct (db !! schema) as [t|] eqn:E; simpl; [|done].
  intros [= <-]. eauto.
Qed.

Lemma upsert_table_lookup t uid row r now :
  upsert_table t uid row r now !! uid
  = Some (match t !! uid with
          | None => row
          | Some old => conflict_update old row r now
          end).
Proof.
  unfold upsert_table. destruct (t !! uid); by rewrite lookup_insert_eq.
Qed.

Lemma upsert_table_lookup_ne t uid u row r now :
  u ≠ uid → upsert_table t uid row r now !! u = t !! u.
Proof.
  intros Hne. unfold upsert_table.
  destruct (t !! uid); by rewrite lookup_insert_ne.
Qed.

Lemma upsert_profile_same schema uid row r now db db' :
  upsert schema uid row r now db = Some db' →
  profile_of db' schema uid
  = Some (match profile_of db schema uid with
          | None => row
          | Some old => conflict_update old row r now
          end).
Proof.
  intros (t & Ht & ->)%upsert_inv. unfold profile_of.
  rewrite lookup_insert_eq, Ht. simpl. apply upsert_table_lookup.
Qed.

Lemma upsert_profile_other schema uid row r now db db' s u :
  upsert schema uid row r now db = Some db' →
  s ≠ schema ∨ u ≠ uid →
  profile_of db' s u = profile_of db s u.
Proof.
  intros (t & Ht & ->)%upsert_inv Hne. unfold profile_of.
  destruct (decide (s = schema)) as [->|Hs].
  - rewrite lookup_insert_eq, Ht. simpl.
    destruct Hne as [?|?]; [done|]. by apply upsert_table_lookup_ne.
  - by rewrite lookup_insert_ne.
Qed.

Lemma upsert_keeps_partitions schema uid row r now db db' s :
  upsert schema uid row r now db = Some db' →
  is_Some (db !! s) → is_Some (db' !! s).
Proof.
  intros (t & Ht & ->)%upsert_inv Hs.
  destruct (decide (s = schema)) as [->|Hne].
  - rewrite lookup_insert_eq. eauto.
  - by rewrite lookup_insert_ne.
Qed.

Lemma upsert_total schema uid row r now db :
  is_Some (db !! schema) → is_Some (upsert schema uid row r now db).
Proof. intros [t Ht]. rewrite (upsert_Some _ _ _ _ _ _ t Ht). eauto. Qed.

Lemma partitions_exist_lookup db t :
  partitions_exist db → t ∈ known_tenants → is_Some (db !! t).
Proof. intros H. apply H. Qed.

Lemma replication_set_known t : t ∈ replication_set → t ∈ known_tenants.
Proof. unfold replication_set, known_tenants. set_solver. Qed.

Lemma elem_of_replication_set t :
  t ∈ replication_set ↔ t = "quimicinter" ∨ t = "qalinkforce".
Proof. unfold replication_set. set_solver. Qed.

(** What one run of the trigger does to the profiles: it succeeds when
    the partitions it names exist, rewrites the identity's row in the
    partitions it touches and leaves every other row alone. *)
Lemma trigger_profiles db new headers now r :
  partitions_exist db →
  is_Some (db !! resolve_schema new headers) →
  resolve_role db new (resolve_schema new headers) = Some r →
  ∃ db', handle_new_auth_user db new headers now = Some db' ∧
    (∀ t, touched (resolve_schema new headers) r t →
       profile_of db' t (user_id new)
       = Some (upserted_row new r t now (profile_of db t (user_id new)))) ∧
    (∀ t u, ¬ touched (resolve_schema new headers) r t ∨ u ≠ user_id new →
       profile_of db' t u = profile_of db t u).
Proof.
  intros Hex Hs Hr. unfold handle_new_auth_user. rewrite Hr. simpl.
  set (v := resolve_schema new headers) in *.
  assert (Hq : is_Some (db !! "quimicinter")).
  { apply Hex. unfold known_tenants. set_solver. }
  assert (Hl : is_Some (db !! "qalinkforce")).
  { apply Hex. unfold known_tenants. set_solver. }
  destruct (upsert_total v (user_id new)
              (mkProfile (user_email new) (new_full_name new) r "active" v now now)
              r now db Hs) as [db1 H1].
  rewrite H1. simpl.
  pose proof (upsert_profile_same _ _ _ _ _ _ _ H1) as S1.
  pose proof (λ s u, upsert_profile_other _ _ _ _ _ _ _ s u H1) as O1.
  destruct (decide (r = "admin")) as [->|Hna].
  2:{ exists db1. split; [done|]. split.
      - intros t [->|[? _]]; [|done]. exact S1.
      - intros t u [Hnt|Hu]; apply O1; [left|right; done].
        intros ->. apply Hnt. by left. }
  assert (∃ db2, (if decide (v ≠ "quimicinter")
                  then upsert "quimicinter" (user_id new)
                         (admin_row new "quimicinter" now) "admin" now db1
                  else Some db1) = Some db2 ∧
            is_Some (db2 !! "qalinkforce") ∧
            (∀ t, t = v ∨ t = "quimicinter" →
               profile_of db2 t (user_id new)
               = Some (upserted_row new "admin" t now
                         (profile_of db t (user_id new)))) ∧
            (∀ t u, (t ≠ v ∧ t ≠ "quimicinter") ∨ u ≠ user_id new →
               profile_of db2 t u = profile_of db t u))
    as (db2 & -> & Hl2 & S2 & O2).
  { destruct (decide (v ≠ "quimicinter")) as [Hvq|Hvq].
    - destruct (upsert_total "quimicinter" (user_id new)
                  (admin_row new "quimicinter" now) "admin" now db1) as [db2 H2].
      { by eapply upsert_keeps_partitions. }
      exists db2. split; [done|].
      pose proof (upsert_profile_same _ _ _ _ _ _ _ H2) as S2.
      pose proof (λ s u, upsert_profile_other _ _ _ _ _ _ _ s u H2) as O2.
      split; [eapply upsert_keeps_partitions; [done|];
              by eapply upsert_keeps_partitions|].
      split.
      + intros t [->| ->].
        * rewrite O2 by (by left). exact S1.
        * rewrite S2, O1 by (left; congruence). done.
      + intros t u [[Htv Htq]|Hu].
        * rewrite O2 by (by left). apply O1. by left.
        * rewrite O2 by (by right). apply O1. by right.
    - apply dec_stable in Hvq. exists db1. split; [done|].
      split; [by eapply upsert_keeps_partitions|]. split.
      + intros t [->| ->]; [exact S1|]. rewrite <- Hvq. exact S1.
      + intros t u [[Htv Htq]|Hu]; apply O1; [by left|by right]. }
  simpl.
  destruct (decide (v ≠ "qalinkforce")) as [Hvl|Hvl].
  - destruct (upsert_total "qalinkforce" (user_id new)
                (admin_row new "qalinkforce" now) "admin" now db2 Hl2)
      as [db3 H3].
    exists db3. split; [done|].
    pose proof (upsert_profile_same _ _ _ _ _ _ _ H3) as S3.
    pose proof (λ s u, upsert_profile_other _ _ _ _ _ _ _ s u H3) as O3.
    split.
    + intros t [->|[_ [->| ->]%elem_of_replication_set]].
      * rewrite O3 by (by left). apply S2. by left.
      * rewrite O3 by (by left). apply S2. by right.
      * rewrite S3, O2 by (left; split; [congruence|done]). done.
    + intros t u [Hnt|Hu].
      * rewrite O3, O2; [done| |].
        -- left. split; intros ->; apply Hnt; [by left|].
           right. split; [done|]. apply elem_of_replication_set. by left.
        -- left. intros ->. apply Hnt.
           right. split; [done|]. apply elem_of_replication_set. by right.
      * rewrite O3 by (by right). apply O2. by right.
  - apply dec_stable in Hvl. exists db2. split; [done|]. split.
    + intros t [->|[_ [->| ->]%elem_of_replication_set]].
      * apply S2. by left.
      * apply S2. by right.
      * apply S2. left. done.
    + intros t u [Hnt|Hu]; apply O2; [|by right].
      left. split; intros ->; apply Hnt; [by left|].
      right. split; [done|]. apply elem_of_replication_set. by left.
Qed.

Lemma user_info_rows db uid :
  partitions_exist db →
  user_info db uid
  = Some (rows_of (profile_of db "public" uid) ++
          rows_of (profile_of db "quimicinter" uid) ++
          rows_of (profile_of db "qalinkforce" uid))%list.
Proof.
  intros Hex. unfold user_info, profile_of, select_by_id, rows_of.
  destruct (Hex "public") as [t0 ->]; [unfold known_tenants; set_solver|].
  destruct (Hex "quimicinter") as [t1 ->]; [unfold known_tenants; set_solver|].
  destruct (Hex "qalinkforce") as [t2 ->]; [unfold known_tenants; set_solver|].
  done.
Qed.

(** The function's answer is one of the answers the query allows. *)
Lemma validate_login_access_may_return db uid p_schema b :
  validate_login_access db uid p_schema = Some b →
  may_return db uid p_schema b.
Proof.
  unfold validate_login_access, may_return.
  destruct (user_info db uid) as [rows|]; simpl; [|done].
  intros [= <-]. exists rows. split; [done|].
  destruct rows as [|r rows]; [by left|].
  right. exists r. split; [apply list_elem_of_here|done].
Qed.

Lemma elem_of_known_tenants t :
  t ∈ known_tenants ↔ t = "public" ∨ t = "quimicinter" ∨ t = "qalinkforce".
Proof. unfold known_tenants. set_solver. Qed.

Lemma partitions_exist_check db :
  forallb (λ t, bool_decide (is_Some (db !! t))) known_tenants = true →
  partitions_exist db.
Proof.
  rewrite forallb_forall. intros H t Ht.
  apply list_elem_of_In, H in Ht. by apply bool_decide_eq_true in Ht.
Qed.

Lemma empty_db_partitions : partitions_exist empty_db.
Proof. by apply partitions_exist_check. Qed.

(** Without a role in the metadata the trigger makes the identity an
    administrator exactly when [public.profiles] holds no row whose
    [schema_name] is the resolved tenant. *)
Lemma resolve_role_default db new v t :
  json_text (raw_user_meta_data new) "role" = None →
  db !! "public" = Some t →
  resolve_role db new v
  = Some (if bool_decide (∃ u p, t !! u = Some p ∧ schema_name p = v)
          then "user" else "admin").
Proof.
  intros Hm Ht. unfold resolve_role, exists_with_schema. rewrite Hm, Ht. simpl.
  rewrite (bool_decide_ext _ (∃ u p, t !! u = Some p ∧ schema_name p = v));
    done.
Qed.





(** C2 (as stated, refuted): after an administrator is provisioned for
    [quimicinter] in a database without profiles, the known tenant
    [public] holds no profile of the new identity. *)
Lemma admin_of_business_unit_has_no_default_profile :
  resolve_schema Scenarios.admin_quimicinter None = "quimicinter" ∧
  resolve_role empty_db Scenarios.admin_quimicinter "quimicinter"
    = Some "admin" ∧
  handle_new_auth_user empty_db Scenarios.admin_quimicinter None 1
    = Some Scenarios.db_admin_quimicinter ∧
  "public" ∈ known_tenants ∧
  role <$> profile_of Scenarios.db_admin_quimicinter "quimicinter" "A"
    = Some "admin" ∧
  role <$> profile_of Scenarios.db_admin_quimicinter "qalinkforce" "A"
    = Some "admin" ∧
  profile_of Scenarios.db_admin_quimicinter "public" "A" = None.
Proof.
  repeat split; try reflexivity. apply elem_of_known_tenants. auto.
Qed.

(** C2 (amended): when the partitions named by the trigger exist and the
    resolved role is 'admin', the trigger succeeds and afterwards the new
    identity has a profile with role 'admin' in the resolved tenant and
    in both tenants of the replication set (quimicinter, qalinkforce);
    the profiles of every other partition -- the default tenant [public]
    when it is not the resolved one -- are as before. *)
Theorem admin_provisioned_in_replication_set db new headers now :
  partitions_exist db →
  is_Some (db !! resolve_schema new headers) →
  resolve_role db new (resolve_schema new headers) = Some "admin" →
  ∃ db', handle_new_auth_user db new headers now = Some db' ∧
    (∀ t, t = resolve_schema new headers ∨ t ∈ replication_set →
       ∃ pr, profile_of db' t (user_id new) = Some pr ∧ role pr = "admin") ∧
    (∀ t u, t ≠ resolve_schema new headers → t ∉ replication_set →
       profile_of db' t u = profile_of db t u).
Proof.
  intros Hex Hs Hr.
  destruct (trigger_profiles db new headers now "admin" Hex Hs Hr)
    as (db' & Hrun & Hin & Hout).
  exists db'. split; [done|]. split.
  - intros t Ht. eexists. split.
    + apply Hin. destruct Ht; [by left|by right].
    + unfold upserted_row. by destruct (profile_of db t (user_id new)).
  - intros t u Hne Hnr. apply Hout. left. intros [?|[_ ?]]; done.
Qed.

(** The scenario of the specification, run on the empty database. *)
Lemma admin_provisioned_in_replication_set_witness :
  ∃ db', handle_new_auth_user empty_db Scenarios.admin_quimicinter None 1
         = Some db' ∧
    (∀ t, t = "quimicinter" ∨ t ∈ replication_set →
       ∃ pr, profile_of db' t "A" = Some pr ∧ role pr = "admin") ∧
    (∀ t u, t ≠ "quimicinter" → t ∉ replication_set →
       profile_of db' t u = profile_of empty_db t u).
Proof.
  apply (admin_provisioned_in_replication_set empty_db
           Scenarios.admin_quimicinter None 1).
  - exact empty_db_partitions.
  - by exists ∅.
  - reflexivity.
Defined.

(** C3 (the code at the failing input): the first identity that registers
    for [quimicinter] without a role becomes its administrator and gets
    its profile there; the next identity that registers for [quimicinter]
    without a role finds the tenant non-empty and is made 'admin' again,
    because the emptiness test reads [public.profiles]. *)
Theorem second_registrant_of_tenant_is_admin :
  handle_new_auth_user empty_db Scenarios.first_registrant None 1
    = Some Scenarios.db_first_registrant ∧
  is_Some (profile_of Scenarios.db_first_registrant "quimicinter" "r1") ∧
  json_text (raw_user_meta_data Scenarios.second_registrant) "role" = None ∧
  resolve_schema Scenarios.second_registrant None = "quimicinter" ∧
  resolve_role Scenarios.db_first_registrant Scenarios.second_registrant
    "quimicinter" = Some "admin" ∧
  handle_new_auth_user Scenarios.db_first_registrant
    Scenarios.second_registrant None 2
    = Some Scenarios.db_second_registrant ∧
  role <$> profile_of Scenarios.db_second_registrant "quimicinter" "r2"
    = Some "admin" ∧
  role <$> profile_of Scenarios.db_second_registrant "qalinkforce" "r2"
    = Some "admin".
Proof.
  repeat split; try reflexivity.
  by exists (mkProfile "r1@example.com" "" "admin" "active" "quimicinter" 1 1).
Qed.

(** C9: when an administrator is provisioned and the identity already has
    a profile in a tenant of the replication set, the trigger leaves that
    row with role 'admin', the new email and full name and the current
    time as its updated timestamp, whatever its role was before, and with
    its status, tenant and created timestamp unchanged. *)
Theorem replication_overwrites_existing_row db new headers now t old :
  partitions_exist db →
  is_Some (db !! resolve_schema new headers) →
  resolve_role db new (resolve_schema new headers) = Some "admin" →
  t ∈ replication_set →
  profile_of db t (user_id new) = Some old →
  ∃ db', handle_new_auth_user db new headers now = Some db' ∧
    profile_of db' t (user_id new)
    = Some {| email := user_email new;
              full_name := new_full_name new;
              role := "admin";
              status := status old;
              schema_name := schema_name old;
              created_at := created_at old;
              updated_at := now |}.
Proof.
  intros Hex Hs Hr Ht Hold.
  destruct (trigger_profiles db new headers now "admin" Hex Hs Hr)
    as (db' & Hrun & Hin & _).
  exists db'. split; [done|].
  rewrite (Hin t) by (by right). by rewrite Hold.
Qed.

Lemma db_with_user_partitions : partitions_exist Scenarios.db_with_user.
Proof. by apply partitions_exist_check. Qed.

(** A regular user of [quimicinter] is made administrator of [public]:
    the row in [quimicinter] keeps its status and creation time. *)
Lemma replication_overwrites_existing_row_witness :
  ∃ db', handle_new_auth_user Scenarios.db_with_user
           Scenarios.promoted_public None 9 = Some db' ∧
    profile_of db' "quimicinter" "u2"
    = Some (mkProfile "new@example.com" "Ana" "admin" "active"
                      "quimicinter" 1 9).
Proof.
  apply (replication_overwrites_existing_row Scenarios.db_with_user
           Scenarios.promoted_public None 9 "quimicinter"
           (mkProfile "old@example.com" "" "user" "active" "quimicinter" 1 1)).
  - exact db_with_user_partitions.
  - by exists ∅.
  - reflexivity.
  - apply elem_of_replication_set. auto.
  - reflexivity.
Defined.

End ProfilesFacts.

(** ** Facts about the invoice list *)

Section InvoiceListFacts.
Import InvoiceList.

Context (env : DateEnv).

Implicit Types (st : State) (data l : list Invoice) (inv : Invoice).

Lemma elem_of_List_filter (f : Invoice → bool) l inv :
  inv ∈ List.filter f l ↔ inv ∈ l ∧ f inv = true.
Proof. rewrite !list_elem_of_In. apply filter_In. Qed.

Lemma sort_insert_perm cmp inv l : sort_insert cmp inv l ≡ₚ inv :: l.
Proof.
  induction l as [|y l IH]; simpl; [done|].
  destruct (cmp inv y <=? 0)%Z; [done|].
  rewrite IH. apply perm_swap.
Qed.

(** Sorting rearranges the list and nothing else. *)
Lemma js_sort_perm cmp l : js_sort cmp l ≡ₚ l.
Proof.
  induction l as [|x l IH]; simpl; [done|].
  by rewrite sort_insert_perm, IH.
Qed.

Lemma elem_of_js_sort cmp l inv : inv ∈ js_sort cmp l ↔ inv ∈ l.
Proof. by rewrite js_sort_perm. Qed.

Lemma js_sort_nil_iff cmp l : js_sort cmp l = [] ↔ l = [].
Proof.
  split; [|by intros ->].
  intros H. apply Permutation_nil. by rewrite <- (js_sort_perm cmp l), H.
Qed.

Lemma loadInvoices_unfold st data :
  loadInvoices env st data
  = js_sort (comparator env (sortConfig st)) (before_sort env st data).
Proof.
  unfold loadInvoices, before_sort.
  destruct (activeFilter st) as [[]|]; try done.
  f_equal. induction (apply_date_range (dateRange st) data) as [|x l IH];
    simpl; [done|]. by rewrite <- IH.
Qed.

Lemma elem_of_apply_date_range r data inv :
  inv ∈ apply_date_range r data
  ↔ inv ∈ data ∧ (date_range_set r = true → in_date_range r inv = true).
Proof.
  unfold apply_date_range. destruct (date_range_set r).
  - rewrite elem_of_List_filter. naive_solver.
  - naive_solver.
Qed.

(** Which invoices [loadInvoices] keeps. *)
Lemma elem_of_loadInvoices st data inv :
  inv ∈ loadInvoices env st data
  ↔ inv ∈ data ∧
    (date_range_set (dateRange st) = true →
     in_date_range (dateRange st) inv = true) ∧
    category_pred env (activeFilter st) inv = true.
Proof.
  rewrite loadInvoices_unfold, elem_of_js_sort. unfold before_sort.
  rewrite elem_of_List_filter, elem_of_apply_date_range. naive_solver.
Qed.

Lemma sort_insert_between cmp inv l1 l2 :
  Forall (λ y, 0 < cmp inv y)%Z l1 →
  Forall (λ y, cmp inv y ≤ 0)%Z l2 →
  sort_insert cmp inv (l1 ++ l2) = l1 ++ inv :: l2.
Proof.
  intros H1 H2. induction H1 as [|y l1 Hy _ IH]; simpl.
  - destruct H2 as [|z l2 Hz _]; simpl; [done|].
    by rewrite (proj2 (Z.leb_le _ _) Hz).
  - rewrite (proj2 (Z.leb_gt _ _) Hy). by rewrite IH.
Qed.

Lemma Forall_by_status (P : Invoice → Prop) s l :
  (∀ y, status y = s → P y) → Forall P (by_status s l).
Proof.
  intros H. apply Forall_forall. intros y.
  unfold by_status. rewrite elem_of_List_filter, bool_decide_eq_true.
  intros [_ Hy]. by apply H.
Qed.

Lemma comparator_status d a b :
  comparator env (mkSortConfig KStatus d) a b
  = match (STATUS_ORDER (status a) ?= STATUS_ORDER (status b))%Z, d with
    | Lt, asc | Gt, desc => (-1)%Z
    | Gt, asc | Lt, desc => 1%Z
    | Eq, _ => 0%Z
    end.
Proof.
  unfold comparator. simpl.
  destruct (status a), (status b), d; reflexivity.
Qed.

Lemma by_status_cons s inv l :
  by_status s (inv :: l)
  = if decide (status inv = s) then inv :: by_status s l else by_status s l.
Proof.
  unfold by_status. simpl. destruct (decide (status inv = s)).
  - by rewrite bool_decide_eq_true_2.
  - by rewrite bool_decide_eq_false_2.
Qed.

Ltac status_order :=
  intros ? Hst; rewrite comparator_status, Hst;
  match goal with H : status _ = _ |- _ => rewrite H end; simpl; lia.

(** Ascending by status: the drafts, the issued, the voided, each group
    in the order of the input. *)
Lemma js_sort_status_asc l :
  js_sort (comparator env (mkSortConfig KStatus asc)) l
  = by_status Draft l ++ by_status Issued l ++ by_status Voided l.
Proof.
  induction l as [|x l IH]; [done|].
  cbn [js_sort]. rewrite IH, !by_status_cons.
  destruct (status x) eqn:Hx; simpl.
  - apply (sort_insert_between _ x []); [done|].
    rewrite !Forall_app. repeat split; apply Forall_by_status; status_order.
  - rewrite (sort_insert_between _ x (by_status Draft l)); [done| |].
    + apply Forall_by_status. status_order.
    + rewrite !Forall_app. split; apply Forall_by_status; status_order.
  - rewrite (app_assoc (by_status Draft l)).
    rewrite (sort_insert_between _ x (by_status Draft l ++ by_status Issued l)).
    + by rewrite <- app_assoc.
    + rewrite !Forall_app. split; apply Forall_by_status; status_order.
    + apply Forall_by_status. status_order.
Qed.

(** Descending by status: the voided, the issued, the drafts, each group
    still in the order of the input. *)
Lemma js_sort_status_desc l :
  js_sort (comparator env (mkSortConfig KStatus desc)) l
  = by_status Voided l ++ by_status Issued l ++ by_status Draft l.
Proof.
  induction l as [|x l IH]; [done|].
  cbn [js_sort]. rewrite IH, !by_status_cons.
  destruct (status x) eqn:Hx; simpl.
  - rewrite (app_assoc (by_status Voided l)).
    rewrite (sort_insert_between _ x (by_status Voided l ++ by_status Issued l)).
    + by rewrite <- app_assoc.
    + rewrite !Forall_app. split; apply Forall_by_status; status_order.
    + apply Forall_by_status. status_order.
  - rewrite (sort_insert_between _ x (by_status Voided l)); [done| |].
    + apply Forall_by_status. status_order.
    + rewrite !Forall_app. split; apply Forall_by_status; status_order.
  - apply (sort_insert_between _ x []); [done|].
    rewrite !Forall_app. repeat split; apply Forall_by_status; status_order.
Qed.

Lemma rev_constant {A} (s : A) (xs : list A) :
  Forall (λ x, x = s) xs → rev xs = xs.
Proof.
  intros H.
  assert (Hsnoc : ∀ ys, Forall (λ x, x = s) ys → ys ++ [s] = s :: ys).
  { intros ys Hy. induction Hy as [|y ys -> _ IH]; simpl; [done|].
    by rewrite IH. }
  induction H as [|x xs -> Hxs IH]; simpl; [done|].
  rewrite IH. by apply Hsnoc.
Qed.

Lemma map_status_by_status s l :
  Forall (λ x, x = s) (map status (by_status s l)).
Proof.
  apply Forall_forall. intros x. rewrite list_elem_of_In, in_map_iff.
  intros (y & <- & Hy). apply list_elem_of_In in Hy.
  unfold by_status in Hy. apply elem_of_List_filter in Hy as [_ Hy].
  by apply bool_decide_eq_true in Hy.
Qed.

Lemma by_status_app s l1 l2 :
  by_status s (l1 ++ l2) = by_status s l1 ++ by_status s l2.
Proof. unfold by_status. apply List.filter_app. Qed.

Lemma by_status_by_status s s' l :
  by_status s (by_status s' l)
  = if decide (s = s') then by_status s l else [].
Proof.
  induction l as [|x l IH]; [by destruct (decide (s = s'))|].
  rewrite (by_status_cons s'), (by_status_cons s x).
  destruct (decide (status x = s')) as [Hx|Hx].
  - rewrite by_status_cons, IH.
    destruct (decide (s = s')) as [->|Hne].
    + by rewrite decide_True.
    + rewrite decide_False by congruence. done.
  - rewrite IH. destruct (decide (s = s')) as [->|Hne]; [|done].
    by rewrite decide_False.
Qed.

Lemma rev_one_status s l :
  NoDup (map status (by_status s l)) → rev (by_status s l) = by_status s l.
Proof.
  pose proof (map_status_by_status s l) as Hc.
  destruct (by_status s l) as [|a [|b l']]; try done.
  simpl in *. intros Hnd. exfalso.
  apply Forall_cons in Hc as [Ha Hc]. apply Forall_cons in Hc as [Hb _].
  apply NoDup_cons in Hnd as [Hnotin _]. apply Hnotin.
  rewrite Ha, Hb. by left.
Qed.

(** C5: with no category selected and no date range set, the list that
    [loadInvoices] puts on display holds an invoice iff it was fetched
    and its status is 'draft' or 'issued'; a voided invoice is never in
    it, a fetched draft with payment status 'pending' is, and with an
    empty search box the search narrows nothing. *)
Theorem default_view_shows_draft_and_issued st data inv :
  activeFilter st = None →
  date_range_set (dateRange st) = false →
  (inv ∈ loadInvoices env st data
   ↔ inv ∈ data ∧ (status inv = Draft ∨ status inv = Issued)) ∧
  (status inv = Voided → inv ∉ loadInvoices env st data) ∧
  (inv ∈ data → status inv = Draft → payment_status inv = Pending →
   inv ∈ loadInvoices env st data) ∧
  (search st = "" →
   filteredInvoices (loadInvoices_resolved env data st)
   = loadInvoices env st data).
Proof.
  intros Hf Hr.
  assert (Hiff : inv ∈ loadInvoices env st data
                 ↔ inv ∈ data ∧ (status inv = Draft ∨ status inv = Issued)).
  { rewrite elem_of_loadInvoices, Hf, Hr. simpl.
    rewrite orb_true_iff, !bool_decide_eq_true. naive_solver. }
  split; [exact Hiff|]. split; [|split].
  - intros Hv. rewrite Hiff, Hv. intros [_ [?|?]]; done.
  - intros Hin Hd _. apply Hiff. auto.
  - intros Hq. unfold filteredInvoices, loadInvoices_resolved. simpl.
    rewrite Hq. apply forallb_filter_id. apply forallb_forall.
    intros x _. unfold matches_search. simpl.
    by destruct (toLowerCase (ncf x)).
Qed.

(** C6 (amended): toggling the status column from ascending to descending
    reverses the sequence of statuses of the list; in both directions the
    invoices of one status stand in the order in which they were fetched,
    so the descending list is the exact reverse of the ascending one when
    no two listed invoices have the same status. *)
Theorem status_sort_toggle st data :
  sortConfig st = mkSortConfig KStatus asc →
  sortConfig (handleSort KStatus st) = mkSortConfig KStatus desc ∧
  map status (loadInvoices env (handleSort KStatus st) data)
  = rev (map status (loadInvoices env st data)) ∧
  (∀ s, by_status s (loadInvoices env (handleSort KStatus st) data)
        = by_status s (before_sort env st data) ∧
        by_status s (loadInvoices env st data)
        = by_status s (before_sort env st data)) ∧
  (NoDup (map status (loadInvoices env st data)) →
   loadInvoices env (handleSort KStatus st) data
   = rev (loadInvoices env st data)).
Proof.
  intros Hcfg.
  assert (Hcfg' : sortConfig (handleSort KStatus st) = mkSortConfig KStatus desc).
  { unfold handleSort. simpl. rewrite Hcfg. reflexivity. }
  split; [exact Hcfg'|].
  rewrite !loadInvoices_unfold, Hcfg, Hcfg'.
  replace (before_sort env (handleSort KStatus st) data)
    with (before_sort env st data) by done.
  rewrite js_sort_status_asc, js_sort_status_desc.
  set (l := before_sort env st data).
  split; [|split].
  - rewrite !map_app, !rev_app_distr, <- app_assoc.
    by rewrite !(rev_constant _ _ (map_status_by_status _ l)).
  - intros s. rewrite !by_status_app, !by_status_by_status.
    destruct s; simpl; by rewrite ?app_nil_r.
  - rewrite !map_app. intros Hnd.
    apply NoDup_app in Hnd as (Hd & _ & Hnd).
    apply NoDup_app in Hnd as (Hi & _ & Hv).
    rewrite !rev_app_distr, <- app_assoc.
    by rewrite !rev_one_status.
Qed.

(** C7 (amended): pressing a category button resets the page to 1, makes
    that category the only active one (or none, when it was active), and
    clears the date range unless the button is 'history'; editing an end
    of the date range leaves the active category as it is. *)
Theorem handleFilter_effects st f :
  currentPage (handleFilter f st) = 1%Z ∧
  activeFilter (handleFilter f st)
  = (if decide (activeFilter st = Some f) then None else Some f) ∧
  (f ≠ FHistory →
   dateRange (handleFilter f st) = mkDateRange "" "" ∧
   date_range_set (dateRange (handleFilter f st)) = false) ∧
  dateRange (handleFilter FHistory st) = dateRange st ∧
  (∀ v, activeFilter (setStartDate v st) = activeFilter st ∧
        activeFilter (setEndDate v st) = activeFilter st).
Proof.
  split; [done|]. split; [done|]. split; [|by split].
  intros Hf. unfold handleFilter. simpl. by rewrite decide_True.
Qed.

(** C8: the 'pending' category keeps, of the invoices it is applied to,
    exactly those with status 'issued' and a payment status other than
    'paid', and so does the pending bucket of the monthly statistics
    among the month's invoices; 'partial' invoices are pending, and an
    invoice that is not issued never is. *)
Theorem pending_is_issued_and_unpaid st data inv :
  (activeFilter st = Some FPending →
   (inv ∈ loadInvoices env st data
    ↔ inv ∈ apply_date_range (dateRange st) data ∧
      status inv = Issued ∧ payment_status inv ≠ Paid) ∧
   (date_range_set (dateRange st) = false →
    (inv ∈ loadInvoices env st data
     ↔ inv ∈ data ∧ status inv = Issued ∧ payment_status inv ≠ Paid))) ∧
  (inv ∈ pendingInvoices env data
   ↔ inv ∈ monthlyInvoices env data ∧
     status inv = Issued ∧ payment_status inv ≠ Paid) ∧
  stat_pending (loadStats env data) = bucket_of (pendingInvoices env data) ∧
  count (stat_pending (loadStats env data))
  = length (pendingInvoices env data) ∧
  (inv ∈ monthlyInvoices env data → status inv = Issued →
   payment_status inv = Partial → inv ∈ pendingInvoices env data) ∧
  (status inv ≠ Issued →
   (inv ∉ pendingInvoices env data) ∧
   (activeFilter st = Some FPending → inv ∉ loadInvoices env st data)).
Proof.
  assert (Hload : activeFilter st = Some FPending →
            (inv ∈ loadInvoices env st data
             ↔ inv ∈ apply_date_range (dateRange st) data ∧
               status inv = Issued ∧ payment_status inv ≠ Paid)).
  { intros Hf. rewrite elem_of_loadInvoices, elem_of_apply_date_range, Hf.
    simpl. rewrite andb_true_iff, !bool_decide_eq_true. naive_solver. }
  assert (Hstat : inv ∈ pendingInvoices env data
                  ↔ inv ∈ monthlyInvoices env data ∧
                    status inv = Issued ∧ payment_status inv ≠ Paid).
  { unfold pendingInvoices. rewrite elem_of_List_filter.
    rewrite andb_true_iff, !bool_decide_eq_true. naive_solver. }
  split; [|split; [exact Hstat|split; [done|split; [done|split]]]].
  - intros Hf. split; [by apply Hload|].
    intros Hr. rewrite (Hload Hf), elem_of_apply_date_range, Hr. naive_solver.
  - intros Hin Hs Hp. apply Hstat. rewrite Hp. naive_solver.
  - intros Hs. split.
    + rewrite Hstat. naive_solver.
    + intros Hf. rewrite (Hload Hf). naive_solver.
Qed.

(** C10: the CSV export hands [exportToCSV] the list that [loadInvoices]
    put into the state -- filtered by date range and category, sorted --
    whatever the search text and the current page are, and does not call
    it when that list is empty. *)
Theorem export_ignores_search_and_page st data q p :
  handleExport (setCurrentPage p (setSearch q (loadInvoices_resolved env data st)))
  = (if decide (loadInvoices env st data = []) then None
     else Some (loadInvoices env st data, "invoices")) ∧
  handleExport (setSearch q st) = handleExport st ∧
  handleExport (setCurrentPage p st) = handleExport st ∧
  (handleExport st = None ↔ invoices st = []) ∧
  (∀ l name, handleExport st = Some (l, name) →
             l = invoices st ∧ name = "invoices").
Proof.
  split; [|split; [done|split; [done|split]]].
  - unfold handleExport. simpl.
    by destruct (loadInvoices env st data) as [|x l].
  - unfold handleExport. destruct (invoices st); simpl; naive_solver.
  - unfold handleExport. intros l name.
    destruct (invoices st); simpl; naive_solver.
Qed.

End InvoiceListFacts.

(** ** The invoice list on concrete inputs *)

Section InvoiceListExamples.
Import InvoiceList InvoiceScenarios.

(** The default view of [fetched] shows the draft and hides the voided
    invoice. *)
Lemma default_view_shows_draft_and_issued_witness :
  draft_1 ∈ loadInvoices env0 initial_state fetched ∧
  voided_1 ∉ loadInvoices env0 initial_state fetched.
Proof.
  split.
  - destruct (default_view_shows_draft_and_issued env0 initial_state fetched
                draft_1 eq_refl eq_refl) as (_ & _ & Hdraft & _).
    apply Hdraft; [|reflexivity|reflexivity].
    unfold fetched. apply list_elem_of_further, list_elem_of_here.
  - destruct (default_view_shows_draft_and_issued env0 initial_state fetched
                voided_1 eq_refl eq_refl) as (_ & Hvoid & _).
    apply Hvoid. reflexivity.
Defined.

(** C6 (as stated, refuted): two drafts stay in their fetched order under
    both directions of the status sort, so the descending list is not the
    reverse of the ascending one. *)
Lemma status_desc_is_not_reverse_of_asc :
  sortConfig initial_state = mkSortConfig KStatus asc ∧
  sortConfig (handleSort KStatus initial_state) = mkSortConfig KStatus desc ∧
  loadInvoices env0 initial_state [draft_1; draft_2] = [draft_1; draft_2] ∧
  loadInvoices env0 (handleSort KStatus initial_state) [draft_1; draft_2]
  = [draft_1; draft_2] ∧
  loadInvoices env0 (handleSort KStatus initial_state) [draft_1; draft_2]
  ≠ rev (loadInvoices env0 initial_state [draft_1; draft_2]).
Proof.
  repeat split; try reflexivity.
  intros H. vm_compute in H. discriminate H.
Qed.

(** The statuses of the default view of [fetched], in both directions. *)
Lemma status_sort_toggle_witness :
  map status (loadInvoices env0 (handleSort KStatus initial_state) fetched)
  = rev (map status (loadInvoices env0 initial_state fetched)) ∧
  map status (loadInvoices env0 initial_state fetched)
  = [Draft; Draft; Issued; Issued].
Proof.
  split; [|reflexivity].
  destruct (status_sort_toggle env0 initial_state fetched eq_refl)
    as (_ & Hrev & _).
  exact Hrev.
Defined.

(** C7 (as stated, refuted): after the 'paid' category is chosen, typing
    a date range leaves 'paid' active (and the page where it was); both
    filters then apply together. *)
Lemma date_range_keeps_category :
  activeFilter (handleFilter FPaid (setCurrentPage 3 initial_state))
  = Some FPaid ∧
  date_range_set (dateRange paid_then_dates) = true ∧
  activeFilter paid_then_dates = Some FPaid ∧
  loadInvoices env0 paid_then_dates fetched = [issued_paid].
Proof. repeat split; reflexivity. Qed.

(** Choosing 'draft' after typing a date range clears the range. *)
Lemma handleFilter_effects_witness :
  date_range_set
    (dateRange (setEndDate "2024-03-31"
                  (setStartDate "2024-03-01" initial_state))) = true ∧
  dateRange dates_then_draft = mkDateRange "" "" ∧
  currentPage dates_then_draft = 1%Z ∧
  activeFilter dates_then_draft = Some FDraft.
Proof.
  destruct (handleFilter_effects
              (setEndDate "2024-03-31" (setStartDate "2024-03-01" initial_state))
              FDraft) as (Hpage & Hactive & Hclear & _).
  split; [reflexivity|]. split; [|split].
  - apply Hclear. discriminate.
  - exact Hpage.
  - exact Hactive.
Defined.

(** In March 2024 the partially paid invoice of [fetched] is pending, in
    the view and in the statistics; the draft is not. *)
Lemma pending_is_issued_and_unpaid_witness :
  issued_partial ∈ loadInvoices env_march
                     (handleFilter FPending initial_state) fetched ∧
  issued_partial ∈ pendingInvoices env_march fetched ∧
  (draft_1 ∉ pendingInvoices env_march fetched) ∧
  count (stat_pending (loadStats env_march fetched)) = 1%nat.
Proof.
  destruct (pending_is_issued_and_unpaid env_march
              (handleFilter FPending initial_state) fetched issued_partial)
    as (Hview & _ & _ & _ & Hpartial & _).
  destruct (pending_is_issued_and_unpaid env_march
              (handleFilter FPending initial_state) fetched draft_1)
    as (_ & _ & _ & _ & _ & Hdraft).
  split; [|split; [|split]].
  - destruct (Hview eq_refl) as [_ Hplain]. apply (Hplain eq_refl).
    split; [|split; [reflexivity|discriminate]].
    unfold fetched. do 4 apply list_elem_of_further. apply list_elem_of_here.
  - apply Hpartial; [|reflexivity|reflexivity].
    apply elem_of_List_filter. split; [|reflexivity].
    unfold fetched. do 4 apply list_elem_of_further. apply list_elem_of_here.
  - assert (Hnot : status draft_1 ≠ Issued) by discriminate.
    exact (proj1 (Hdraft Hnot)).
  - reflexivity.
Defined.

(** A search that matches nothing empties the table, not the export. *)
Lemma export_ignores_search_and_page_witness :
  handleExport searched_nothing
  = Some ([draft_1; draft_2; issued_paid; issued_partial], "invoices") ∧
  filteredInvoices searched_nothing = [] ∧
  paginatedInvoices searched_nothing = [] ∧
  handleExport initial_state = None.
Proof.
  destruct (export_ignores_search_and_page env0 initial_state fetched "zzz" 2)
    as (Hexport & _ & _ & Hnone & _).
  split; [exact Hexport|]. split; [reflexivity|]. split; [reflexivity|].
  apply Hnone. reflexivity.
Defined.

End InvoiceListExamples.

(** ** More on the provisioning trigger and the access validator *)

Section ProvisioningFacts.
Import Profiles.

Implicit Types (db : Database) (new : AuthUser) (headers : option json).
Implicit Types (ops : list (string * Profile * string)).

(** The trigger is its role resolution followed by its list of upserts. *)
Lemma handle_as_run db new headers now :
  handle_new_auth_user db new headers now
  = resolve_role db new (resolve_schema new headers) ≫= λ r,
      run_upserts (user_id new) now
        (trigger_upserts new (resolve_schema new headers) r now) db.
Proof.
  unfold handle_new_auth_user, trigger_upserts.
  destruct (resolve_role db new (resolve_schema new headers)) as [r|];
    simpl; [|done].
  destruct (upsert (resolve_schema new headers) (user_id new) _ r now db)
    as [db1|]; simpl; [|done].
  destruct (decide (r = "admin")); simpl; [|done].
  destruct (decide (resolve_schema new headers ≠ "quimicinter")); simpl.
  - destruct (upsert "quimicinter" _ _ _ _ db1) as [db2|]; simpl; [|done].
    destruct (decide (resolve_schema new headers ≠ "qalinkforce")); simpl;
      [|done].
    by destruct (upsert "qalinkforce" _ _ _ _ db2).
  - destruct (decide (resolve_schema new headers ≠ "qalinkforce")); simpl;
      [|done].
    by destruct (upsert "qalinkforce" _ _ _ _ db1).
Qed.

Lemma trigger_upserts_schemas new v r now :
  NoDup (trigger_upserts new v r now).*1.*1 ∧
  ∀ t, t ∈ (trigger_upserts new v r now).*1.*1 ↔ touched v r t.
Proof.
  unfold trigger_upserts, touched.
  destruct (decide (r = "admin")) as [->|Hr];
    [destruct (decide (v ≠ "quimicinter")) as [Hq|Hq],
              (decide (v ≠ "qalinkforce")) as [Hl|Hl]|]; simpl.
  - split.
    + repeat constructor; set_solver.
    + intros t. rewrite elem_of_replication_set. set_solver.
  - apply dec_stable in Hl as ->. split.
    + repeat constructor; set_solver.
    + intros t. rewrite elem_of_replication_set. set_solver.
  - apply dec_stable in Hq as ->. split.
    + repeat constructor; set_solver.
    + intros t. rewrite elem_of_replication_set. set_solver.
  - apply dec_stable in Hq. apply dec_stable in Hl. congruence.
  - split; [repeat constructor; set_solver|]. intros t. set_solver.
Qed.

Lemma trigger_upserts_row new v r now s row r' :
  (s, row, r') ∈ trigger_upserts new v r now →
  r' = r ∧
  row = mkProfile (user_email new) (new_full_name new) r "active" s now now.
Proof.
  unfold trigger_upserts, admin_row.
  destruct (decide (r = "admin")) as [->|Hr];
    [destruct (decide (v ≠ "quimicinter")), (decide (v ≠ "qalinkforce"))|];
    simpl; rewrite ?elem_of_cons, ?elem_of_nil; naive_solver.
Qed.

Lemma upsert_lookup_other schema uid row r now db db' s :
  upsert schema uid row r now db = Some db' → s ≠ schema →
  db' !! s = db !! s.
Proof. intros (t & Ht & ->)%upsert_inv Hne. by rewrite lookup_insert_ne. Qed.

Lemma upsert_partitions_iff schema uid row r now db db' s :
  upsert schema uid row r now db = Some db' →
  is_Some (db' !! s) ↔ is_Some (db !! s).
Proof.
  intros (t & Ht & ->)%upsert_inv.
  destruct (decide (s = schema)) as [->|Hne].
  - rewrite lookup_insert_eq, Ht. split; eauto.
  - by rewrite lookup_insert_ne.
Qed.

(** A run succeeds exactly when every partition it names exists. *)
Lemma run_upserts_is_Some uid now ops db :
  is_Some (run_upserts uid now ops db) ↔ ∀ s, s ∈ ops.*1.*1 → is_Some (db !! s).
Proof.
  revert db. induction ops as [|[[s row] r] ops IH]; intros db; simpl.
  - split; [|eauto]. intros _ s Hs. by apply elem_of_nil in Hs.
  - split.
    + intros [db' Hrun].
      destruct (upsert s uid row r now db) as [db1|] eqn:H1; simpl in Hrun;
        [|done].
      intros s' [->|Hs']%elem_of_cons.
      * apply upsert_inv in H1 as (t & Ht & _). eauto.
      * apply (upsert_partitions_iff _ _ _ _ _ _ _ s' H1).
        apply IH; eauto.
    + intros Hall.
      destruct (upsert_total s uid row r now db) as [db1 H1].
      { apply Hall. by left. }
      rewrite H1. simpl. apply IH. intros s' Hs'.
      apply (upsert_partitions_iff _ _ _ _ _ _ _ s' H1). apply Hall. by right.
Qed.

Lemma in_upsert_schemas ops s row r : (s, row, r) ∈ ops → s ∈ ops.*1.*1.
Proof.
  intros Hin. apply list_elem_of_fmap. exists (s, row). split; [done|].
  apply list_elem_of_fmap. exists (s, row, r). done.
Qed.

(** What a run over distinct partitions leaves behind. *)
Lemma run_upserts_spec uid now ops db db' :
  NoDup ops.*1.*1 →
  run_upserts uid now ops db = Some db' →
  (∀ s row r, (s, row, r) ∈ ops →
     profile_of db' s uid
     = Some (match profile_of db s uid with
             | None => row
             | Some old => conflict_update old row r now
             end)) ∧
  (∀ t u, t ∉ ops.*1.*1 ∨ u ≠ uid → profile_of db' t u = profile_of db t u) ∧
  (∀ t, t ∉ ops.*1.*1 → db' !! t = db !! t) ∧
  (∀ t, is_Some (db' !! t) ↔ is_Some (db !! t)).
Proof.
  revert db. induction ops as [|[[s row] r] ops IH]; intros db Hnd.
  - simpl. intros [= <-]. split; [|done].
    intros ??? Hin. by apply elem_of_nil in Hin.
  - cbn [run_upserts]. rewrite !fmap_cons in Hnd |- *. cbn [fst] in Hnd |- *.
    destruct (upsert s uid row r now db) as [db1|] eqn:H1; simpl; [|done].
    intros Hrun. apply NoDup_cons in Hnd as [Hs Hnd].
    destruct (IH db1 Hnd Hrun) as (Hin & Hout & Htab & Hsome).
    split; [|split; [|split]].
    + intros s' row' r' [[= -> -> ->]|Hin']%elem_of_cons.
      * rewrite Hout by (by left).
        by rewrite (upsert_profile_same _ _ _ _ _ _ _ H1).
      * rewrite (Hin _ _ _ Hin').
        rewrite (upsert_profile_other _ _ _ _ _ _ _ s' uid H1); [done|].
        left. intros ->. apply Hs. by eapply in_upsert_schemas.
    + intros t u Hcond. rewrite Hout.
      * apply (upsert_profile_other _ _ _ _ _ _ _ _ _ H1).
        destruct Hcond as [Ht|Hu]; [left|by right].
        intros ->. apply Ht. by left.
      * destruct Hcond as [Ht|Hu]; [left|by right].
        intros Ht'. apply Ht. by right.
    + intros t Ht. rewrite Htab.
      * apply (upsert_lookup_other _ _ _ _ _ _ _ _ H1).
        intros ->. apply Ht. by left.
      * intros Ht'. apply Ht. by right.
    + intros t. rewrite Hsome.
      apply (upsert_partitions_iff _ _ _ _ _ _ _ _ H1).
Qed.

(** What a successful run of the trigger did, read from the run alone. *)
Lemma trigger_run_inv db new headers now db' :
  handle_new_auth_user db new headers now = Some db' →
  ∃ r, resolve_role db new (resolve_schema new headers) = Some r ∧
    (∀ t, touched (resolve_schema new headers) r t →
       is_Some (db !! t) ∧
       profile_of db' t (user_id new)
       = Some (upserted_row new r t now (profile_of db t (user_id new)))) ∧
    (∀ t u, ¬ touched (resolve_schema new headers) r t ∨ u ≠ user_id new →
       profile_of db' t u = profile_of db t u) ∧
    (∀ t, ¬ touched (resolve_schema new headers) r t → db' !! t = db !! t) ∧
    (∀ t, is_Some (db' !! t) ↔ is_Some (db !! t)).
Proof.
  rewrite handle_as_run.
  destruct (resolve_role db new (resolve_schema new headers)) as [r|];
    cbn -[run_upserts trigger_upserts resolve_schema]; [|done].
  intros Hrun. exists r. split; [done|].
  destruct (trigger_upserts_schemas new (resolve_schema new headers) r now)
    as [Hnd Hiff].
  destruct (run_upserts_spec _ _ _ _ _ Hnd Hrun) as (Hin & Hout & Htab & Hsome).
  split; [|split; [|split]].
  - intros t Ht. split.
    + eapply (proj1 (run_upserts_is_Some (user_id new) now _ db));
        [by rewrite Hrun|]. by apply Hiff.
    + apply Hiff in Ht.
      apply list_elem_of_fmap in Ht as ([s row] & -> & Ht).
      apply list_elem_of_fmap in Ht as ([[s' row'] r'] & [= <- <-] & Ht).
      simpl. rewrite (Hin _ _ _ Ht).
      apply trigger_upserts_row in Ht as [-> ->]. done.
  - intros t u [Ht|Hu]; apply Hout; [left|by right]. by rewrite Hiff.
  - intros t Ht. apply Htab. by rewrite Hiff.
  - done.
Qed.

Lemma resolve_role_public db new v r :
  resolve_role db new v = Some r → is_Some (db !! "public").
Proof. unfold resolve_role. destruct (db !! "public"); [eauto|done]. Qed.

Lemma resolve_role_explicit db new v r :
  json_text (raw_user_meta_data new) "role" = Some r →
  is_Some (db !! "public") → resolve_role db new v = Some r.
Proof. intros Hm [t Ht]. unfold resolve_role. by rewrite Ht, Hm. Qed.

(** What the upserts of one run did. *)
Lemma run_trigger_upserts_inv db new v r now db' :
  run_upserts (user_id new) now (trigger_upserts new v r now) db = Some db' →
  (∀ t, touched v r t →
     is_Some (db !! t) ∧
     profile_of db' t (user_id new)
     = Some (upserted_row new r t now (profile_of db t (user_id new)))) ∧
  (∀ t u, ¬ touched v r t ∨ u ≠ user_id new →
     profile_of db' t u = profile_of db t u) ∧
  (∀ t, ¬ touched v r t → db' !! t = db !! t) ∧
  (∀ t, is_Some (db' !! t) ↔ is_Some (db !! t)).
Proof.
  intros Hrun.
  destruct (trigger_upserts_schemas new v r now) as [Hnd Hiff].
  destruct (run_upserts_spec _ _ _ _ _ Hnd Hrun) as (Hin & Hout & Htab & Hsome).
  split; [|split; [|split]].
  - intros t Ht. split.
    + eapply (proj1 (run_upserts_is_Some (user_id new) now _ db));
        [by rewrite Hrun|]. by apply Hiff.
    + apply Hiff in Ht.
      apply list_elem_of_fmap in Ht as ([s row] & -> & Ht).
      apply list_elem_of_fmap in Ht as ([[s' row'] r'] & [= <- <-] & Ht).
      simpl. rewrite (Hin _ _ _ Ht).
      apply trigger_upserts_row in Ht as [-> ->]. done.
  - intros t u [Ht|Hu]; apply Hout; [left|by right]. by rewrite Hiff.
  - intros t Ht. apply Htab. by rewrite Hiff.
  - done.
Qed.

(** On a setting that the cast accepts the trigger is
    [handle_new_auth_user] on the parsed headers. *)
Lemma on_auth_user_created_cast db new setting headers now :
  cast_headers setting = Some headers →
  on_auth_user_created db new setting now
  = handle_new_auth_user db new headers now.
Proof.
  intros Hcast. rewrite handle_as_run. unfold on_auth_user_created.
  assert (resolve_schema_setting new setting
          = Some (resolve_schema new headers)) as ->; [|done].
  unfold resolve_schema_setting, resolve_schema. rewrite Hcast. simpl.
  by destruct (json_text (raw_user_meta_data new) "schema_name").
Qed.

(** The member of the metadata that [->>] reads, on the row itself. *)
Lemma json_text_metadata new k :
  json_text (raw_user_meta_data new) k
  = match raw_user_meta_data new with
    | Some m => m !! k
    | None => None
    end.
Proof. unfold json_text. by destruct (raw_user_meta_data new). Qed.

(** X1: the trigger raises, and the identity is not created, whenever
    [public.profiles] does not exist; whenever the metadata has no
    'schema_name' and the header setting is a text the cast to json
    rejects; whenever the resolved tenant has no profiles table; and,
    for role 'admin', whenever quimicinter or qalinkforce has none. *)
Theorem trigger_raises_when db new setting now :
  (db !! "public" = None → on_auth_user_created db new setting now = None) ∧
  ((raw_user_meta_data new = None ∨
    ∃ m, raw_user_meta_data new = Some m ∧ m !! "schema_name" = None) →
   setting = SettingInvalid →
   on_auth_user_created db new setting now = None) ∧
  (∀ v, resolve_schema_setting new setting = Some v → db !! v = None →
        on_auth_user_created db new setting now = None) ∧
  (∀ v, resolve_schema_setting new setting = Some v →
        resolve_role db new v = Some "admin" →
        db !! "quimicinter" = None ∨ db !! "qalinkforce" = None →
        on_auth_user_created db new setting now = None).
Proof.
  assert (Hmissing : ∀ v r t, touched v r t → db !! t = None →
            run_upserts (user_id new) now (trigger_upserts new v r now) db
            = None).
  { intros v r t Ht Hnone.
    destruct (run_upserts _ _ _ db) as [db'|] eqn:Hrun; [|done].
    destruct (run_trigger_upserts_inv _ _ _ _ _ _ Hrun) as (Hin & _).
    destruct (Hin t Ht) as [[? Hsome] _]. congruence. }
  unfold on_auth_user_created. split; [|split; [|split]].
  - intros Hpub.
    destruct (resolve_schema_setting new setting) as [v|]; [|done].
    cbn -[run_upserts trigger_upserts]. unfold resolve_role. by rewrite Hpub.
  - intros Hmeta ->. unfold resolve_schema_setting.
    rewrite json_text_metadata.
    by destruct Hmeta as [->|(m & -> & ->)].
  - intros v -> Hnone. cbn -[run_upserts trigger_upserts].
    destruct (resolve_role db new v) as [r|]; [|done].
    cbn -[run_upserts trigger_upserts]. apply (Hmissing v r v); [by left|done].
  - intros v -> Hr Hnone. cbn -[run_upserts trigger_upserts].
    rewrite Hr. cbn -[run_upserts trigger_upserts].
    destruct Hnone as [Hq|Hl].
    + apply (Hmissing v "admin" "quimicinter"); [|done].
      right. split; [done|]. apply elem_of_replication_set. auto.
    + apply (Hmissing v "admin" "qalinkforce"); [|done].
      right. split; [done|]. apply elem_of_replication_set. auto.
Qed.

(** C4 (the code at the failing input): an identity without metadata
    signs up while the header setting holds a text that is not JSON, as
    the empty string is.  The tenant does not resolve and the trigger
    raises; with the setting unset the same sign-up lands in 'public'. *)
Theorem trigger_raises_on_rejected_headers :
  raw_user_meta_data Scenarios.bare_user = None ∧
  cast_headers SettingInvalid = None ∧
  resolve_schema_setting Scenarios.bare_user SettingInvalid = None ∧
  on_auth_user_created empty_db Scenarios.bare_user SettingInvalid 1 = None ∧
  resolve_schema_setting Scenarios.bare_user SettingUnset = Some "public" ∧
  on_auth_user_created empty_db Scenarios.bare_user SettingUnset 1
  = Some Scenarios.db_bare_user.
Proof. repeat split; reflexivity. Qed.

(** X25: when the trigger succeeds, the tenant it resolved is the
    'schema_name' of the metadata if there is one, else the
    'x-schema-name' of the request headers if there is one, else
    'public'; the identity's row is in that tenant's partition, under
    that tenant's name if it is new there, and no partition other than
    that one, quimicinter and qalinkforce has changed. *)
Theorem trigger_resolves_tenant db new setting now db' :
  on_auth_user_created db new setting now = Some db' →
  ∃ v,
    (∀ m x, raw_user_meta_data new = Some m → m !! "schema_name" = Some x →
            v = x) ∧
    ((raw_user_meta_data new = None ∨
      ∃ m, raw_user_meta_data new = Some m ∧ m !! "schema_name" = None) →
     (∀ o x, setting = SettingObject o → o !! "x-schema-name" = Some x →
             v = x) ∧
     (setting = SettingUnset ∨
      (∃ o, setting = SettingObject o ∧ o !! "x-schema-name" = None) →
      v = "public")) ∧
    (∃ p, profile_of db' v (user_id new) = Some p ∧
          (profile_of db v (user_id new) = None → schema_name p = v)) ∧
    (∀ t, t ≠ v → t ∉ replication_set → db' !! t = db !! t).
Proof.
  unfold on_auth_user_created.
  destruct (resolve_schema_setting new setting) as [v|] eqn:Hv;
    cbn -[run_upserts trigger_upserts]; [|done].
  destruct (resolve_role db new v) as [r|];
    cbn -[run_upserts trigger_upserts]; [|done].
  intros (Hin & _ & Htab & _)%run_trigger_upserts_inv.
  exists v. unfold resolve_schema_setting in Hv.
  rewrite json_text_metadata in Hv.
  split; [|split; [|split]].
  - intros m x Hm Hx. rewrite Hm, Hx in Hv. congruence.
  - intros Hnone.
    assert (Hv' : cast_headers setting ≫= (λ headers,
                    Some (default "public"
                            (COALESCE [json_text headers "x-schema-name";
                                       Some "public"]))) = Some v).
    { by destruct Hnone as [Hm|(m & Hm & Hx)]; rewrite Hm, ?Hx in Hv. }
    split.
    + intros o x -> Hx. simpl in Hv'. rewrite Hx in Hv'. simpl in Hv'.
      congruence.
    + intros [->|(o & -> & Hx)]; simpl in Hv'; rewrite ?Hx in Hv';
        simpl in Hv'; congruence.
  - destruct (Hin v) as [_ Hrow]; [by left|]. eexists. split; [exact Hrow|].
    intros ->. done.
  - intros t Ht Hr. apply Htab. intros [?|[_ ?]]; done.
Qed.

(** X2: a run of the trigger neither creates nor drops a partition and
    does not change the profile of any other identity, or any partition
    other than the resolved one and the two of the replication set. *)
Theorem trigger_frame db new headers now db' :
  handle_new_auth_user db new headers now = Some db' →
  (∀ t, is_Some (db' !! t) ↔ is_Some (db !! t)) ∧
  (∀ t u, u ≠ user_id new → profile_of db' t u = profile_of db t u) ∧
  (∀ t, t ≠ resolve_schema new headers → t ∉ replication_set →
        db' !! t = db !! t).
Proof.
  intros (r & _ & _ & Hout & Htab & Hsome)%trigger_run_inv.
  split; [done|]. split.
  - intros t u Hu. apply Hout. by right.
  - intros t Hv Hr. apply Htab. intros [?|[_ ?]]; done.
Qed.

(** X3: when the resolved role is not 'admin', the trigger writes to the
    resolved tenant's partition only. *)
Theorem regular_user_touches_one_partition db new headers now db' :
  handle_new_auth_user db new headers now = Some db' →
  resolve_role db new (resolve_schema new headers) ≠ Some "admin" →
  ∀ t, t ≠ resolve_schema new headers → db' !! t = db !! t.
Proof.
  intros (r & Hr & _ & _ & Htab & _)%trigger_run_inv Hna t Ht.
  apply Htab. intros [?|[-> _]]; [done|]. by apply Hna.
Qed.

(** X4: in the resolved tenant the trigger leaves a fresh identity a row
    with the resolved role, status 'active', that tenant's name and both
    timestamps at the current time; an existing row gets the new email,
    full name and the resolved role -- which can demote an administrator
    -- and keeps its status, tenant name and creation time. *)
Theorem resolved_tenant_row db new headers now db' :
  handle_new_auth_user db new headers now = Some db' →
  ∃ r, resolve_role db new (resolve_schema new headers) = Some r ∧
    profile_of db' (resolve_schema new headers) (user_id new)
    = Some match profile_of db (resolve_schema new headers) (user_id new) with
           | None =>
               mkProfile (user_email new) (new_full_name new) r "active"
                         (resolve_schema new headers) now now
           | Some old =>
               mkProfile (user_email new) (new_full_name new) r (status old)
                         (schema_name old) (created_at old) now
           end.
Proof.
  intros (r & Hr & Hin & _)%trigger_run_inv. exists r. split; [done|].
  destruct (Hin (resolve_schema new headers)) as [_ ->]; [by left|].
  unfold upserted_row.
  by destruct (profile_of db (resolve_schema new headers) (user_id new)).
Qed.

(** X5: when the metadata names the role, delivering the same event again
    succeeds and changes nothing but the updated timestamp of the rows
    the first delivery wrote. *)
Theorem redelivery_refreshes_updated_at db new headers now now2 r db1 :
  json_text (raw_user_meta_data new) "role" = Some r →
  handle_new_auth_user db new headers now = Some db1 →
  ∃ db2, handle_new_auth_user db1 new headers now2 = Some db2 ∧
    ∀ t u,
      profile_of db2 t u
      = if decide (touched (resolve_schema new headers) r t ∧ u = user_id new)
        then set_updated_at now2 <$> profile_of db1 t u
        else profile_of db1 t u.
Proof.
  intros Hmeta Hrun1.
  destruct (trigger_run_inv _ _ _ _ _ Hrun1)
    as (r1 & Hr1 & Hin1 & _ & _ & Hsome1).
  pose proof (resolve_role_public _ _ _ _ Hr1) as Hpub.
  assert (Hrole : ∀ d, is_Some (d !! "public") →
            resolve_role d new (resolve_schema new headers) = Some r).
  { intros d Hd. by apply resolve_role_explicit. }
  rewrite (Hrole db Hpub) in Hr1. injection Hr1 as <-.
  assert (Hpub1 : is_Some (db1 !! "public")) by (by apply Hsome1).
  assert (Hok : is_Some (handle_new_auth_user db1 new headers now2)).
  { rewrite handle_as_run, (Hrole db1 Hpub1).
    cbn -[run_upserts trigger_upserts resolve_schema].
    apply run_upserts_is_Some. intros s Hs. apply Hsome1.
    apply (Hin1 s).
    by apply (trigger_upserts_schemas new (resolve_schema new headers) r now2). }
  destruct Hok as [db2 Hrun2].
  exists db2. split; [done|].
  destruct (trigger_run_inv _ _ _ _ _ Hrun2) as (r2 & Hr2 & Hin2 & Hout2 & _).
  rewrite (Hrole db1 Hpub1) in Hr2. injection Hr2 as <-.
  intros t u. destruct (decide _) as [[Ht ->]|Hno].
  - destruct (Hin2 t Ht) as [_ ->]. destruct (Hin1 t Ht) as [_ ->].
    simpl. unfold upserted_row.
    by destruct (profile_of db t (user_id new)).
  - apply Hout2. apply not_and_l in Hno. exact Hno.
Qed.

Lemma partitions_exist_iff db db' :
  (∀ t, is_Some (db' !! t) ↔ is_Some (db !! t)) →
  partitions_exist db' ↔ partitions_exist db.
Proof. intros H. unfold partitions_exist. by setoid_rewrite H. Qed.

(** X6: an identity that had no profile in the known partitions is, once
    provisioned, granted every tenant when its role is 'admin'; otherwise
    it is granted the resolved tenant and no other -- and no tenant at
    all when the resolved tenant is not one of the three known ones. *)
Theorem fresh_identity_access db new headers now db' :
  partitions_exist db →
  (∀ t, t ∈ known_tenants → profile_of db t (user_id new) = None) →
  handle_new_auth_user db new headers now = Some db' →
  ∃ r, resolve_role db new (resolve_schema new headers) = Some r ∧
    ∀ p, validate_login_access db' (user_id new) p
         = Some (if decide (r = "admin") then true
                 else bool_decide (resolve_schema new headers = p ∧
                                   resolve_schema new headers ∈ known_tenants)).
Proof.
  intros Hex Hfresh Hrun.
  destruct (trigger_run_inv _ _ _ _ _ Hrun) as (r & Hr & Hin & Hout & _ & Hsome).
  exists r. split; [done|]. intros p.
  apply (partitions_exist_iff _ _ Hsome) in Hex.
  unfold validate_login_access. rewrite (user_info_rows _ _ Hex).
  set (v := resolve_schema new headers) in *.
  assert (Hprof : ∀ t, t ∈ known_tenants →
            profile_of db' t (user_id new)
            = if decide (touched v r t)
              then Some (mkProfile (user_email new) (new_full_name new) r
                                   "active" t now now)
              else None).
  { intros t Ht. destruct (decide (touched v r t)) as [Hy|Hn].
    - destruct (Hin t Hy) as [_ ->]. by rewrite (Hfresh t Ht).
    - rewrite Hout by (by left). by apply Hfresh. }
  rewrite !Hprof by (apply elem_of_known_tenants; auto). clear Hprof.
  unfold touched. simpl.
  destruct (decide (r = "admin")) as [->|Hr'].
  - rewrite (decide_True (P := "quimicinter" = v ∨ _))
      by (right; split; [done|apply elem_of_replication_set; auto]).
    destruct (decide ("public" = v ∨ _)); done.
  - destruct (decide (v = "public")) as [Hv|Hv];
      [|destruct (decide (v = "quimicinter")) as [Hv'|Hv'];
        [|destruct (decide (v = "qalinkforce")) as [Hv''|Hv'']]].
    + rewrite Hv. rewrite (decide_True (P := "public" = "public" ∨ _))
        by (by left).
      simpl. rewrite decide_False by done. f_equal.
      apply bool_decide_ext. rewrite elem_of_known_tenants. naive_solver.
    + rewrite Hv'. rewrite (decide_False (P := "public" = "quimicinter" ∨ _))
        by naive_solver.
      rewrite (decide_True (P := "quimicinter" = "quimicinter" ∨ _))
        by (by left).
      simpl. rewrite decide_False by done. f_equal.
      apply bool_decide_ext. rewrite elem_of_known_tenants. naive_solver.
    + rewrite Hv''. rewrite (decide_False (P := "public" = "qalinkforce" ∨ _))
        by naive_solver.
      rewrite (decide_False (P := "quimicinter" = "qalinkforce" ∨ _))
        by naive_solver.
      rewrite (decide_True (P := "qalinkforce" = "qalinkforce" ∨ _))
        by (by left).
      simpl. rewrite decide_False by done. f_equal.
      apply bool_decide_ext. rewrite elem_of_known_tenants. naive_solver.
    + rewrite !decide_False by naive_solver. simpl. f_equal.
      symmetry. apply bool_decide_eq_false.
      rewrite elem_of_known_tenants. naive_solver.
Qed.

Lemma trigger_keeps_schema_consistent db new headers now db' :
  schema_consistent db →
  handle_new_auth_user db new headers now = Some db' →
  schema_consistent db'.
Proof.
  intros Hc (r & _ & Hin & Hout & _)%trigger_run_inv t u p.
  destruct (decide (touched (resolve_schema new headers) r t ∧ u = user_id new))
    as [[Ht ->]|Hno].
  - destruct (Hin t Ht) as [_ ->]. intros [= <-]. unfold upserted_row.
    destruct (profile_of db t (user_id new)) as [old|] eqn:Hold; [|done].
    simpl. by apply (Hc t (user_id new)).
  - rewrite Hout by (by apply not_and_l in Hno). apply Hc.
Qed.

Lemma empty_db_schema_consistent : schema_consistent empty_db.
Proof.
  intros t u p. unfold profile_of, empty_db.
  destruct (decide (t = "public")) as [->|?];
    [by rewrite lookup_insert_eq|rewrite lookup_insert_ne by done].
  destruct (decide (t = "quimicinter")) as [->|?];
    [by rewrite lookup_insert_eq|rewrite lookup_insert_ne by done].
  destruct (decide (t = "qalinkforce")) as [->|?];
    [by rewrite lookup_insert_eq|rewrite lookup_insert_ne by done].
  by rewrite lookup_empty.
Qed.

(** X7: whatever identities are provisioned, in whatever order, into a
    database whose rows carry the name of their partition -- the empty
    database is one -- every row still carries the name of its partition
    afterwards, and no partition was created or dropped. *)
Theorem provisioning_keeps_schema_names events db db' :
  schema_consistent db →
  provision_all events db = Some db' →
  schema_consistent db' ∧ (∀ t, is_Some (db' !! t) ↔ is_Some (db !! t)).
Proof.
  revert db. induction events as [|[[new headers] now] events IH];
    intros db Hc; simpl.
  - by intros [= <-].
  - destruct (handle_new_auth_user db new headers now) as [db1|] eqn:H1;
      simpl; [|done].
    intros Hrest.
    destruct (IH db1 (trigger_keeps_schema_consistent _ _ _ _ _ Hc H1) Hrest)
      as [Hc' Hs'].
    split; [done|]. intros t. rewrite Hs'.
    by destruct (trigger_run_inv _ _ _ _ _ H1) as (_ & _ & _ & _ & _ & ->).
Qed.

Lemma default_role_public_rows db new v tb :
  (∀ u p, tb !! u = Some p → schema_name p = "public") →
  db !! "public" = Some tb →
  json_text (raw_user_meta_data new) "role" = None →
  resolve_role db new v
  = Some (if decide (v = "public" ∧ tb ≠ ∅) then "user" else "admin").
Proof.
  intros Hpub Htb Hmeta. rewrite (resolve_role_default _ _ _ _ Hmeta Htb).
  f_equal. destruct (decide (v = "public" ∧ tb ≠ ∅)) as [[-> Hne]|Hno].
  - rewrite bool_decide_eq_true_2; [done|].
    apply map_choose in Hne as (u & p & Hp). exists u, p. eauto.
  - rewrite bool_decide_eq_false_2; [done|].
    intros (u & p & Hp & Hv). apply Hno. split.
    + by rewrite <- Hv, (Hpub _ _ Hp).
    + intros ->. by rewrite lookup_empty in Hp.
Qed.

(** X8: in a database whose rows carry the name of their partition, an
    identity without a role in its metadata is made 'user' only when the
    resolved tenant is 'public' and [public.profiles] is not empty; for
    every other resolved tenant it is made 'admin', however many
    profiles that tenant has. *)
Theorem default_role_when_consistent db new v tb :
  schema_consistent db →
  db !! "public" = Some tb →
  json_text (raw_user_meta_data new) "role" = None →
  resolve_role db new v
  = Some (if decide (v = "public" ∧ tb ≠ ∅) then "user" else "admin").
Proof.
  intros Hc Htb. apply default_role_public_rows; [|done].
  intros u p Hp. apply (Hc "public" u). unfold profile_of. by rewrite Htb.
Qed.

(** X9: after any identity was provisioned into a tenant, the next
    identity that registers for the same tenant without a role becomes
    'user' when the tenant is 'public' and 'admin' when it is any other. *)
Theorem next_registrant_role db new headers now db' new2 :
  schema_consistent db →
  is_Some (db !! "public") →
  handle_new_auth_user db new headers now = Some db' →
  json_text (raw_user_meta_data new2) "role" = None →
  resolve_role db' new2 (resolve_schema new headers)
  = Some (if decide (resolve_schema new headers = "public")
          then "user" else "admin").
Proof.
  intros Hc Hpub Hrun Hmeta.
  pose proof (trigger_keeps_schema_consistent _ _ _ _ _ Hc Hrun) as Hc'.
  destruct (trigger_run_inv _ _ _ _ _ Hrun) as (r & _ & Hin & _ & _ & Hsome).
  apply Hsome in Hpub as [tb' Htb'].
  rewrite (default_role_public_rows db' new2 _ tb'); [|
    intros u p Hp; apply (Hc' "public" u); unfold profile_of;
    by rewrite Htb' |done|done].
  f_equal. destruct (decide (resolve_schema new headers = "public")) as [Hv|Hv].
  - rewrite decide_True; [done|]. split; [done|].
    destruct (Hin "public") as [_ Hrow]; [by left|].
    unfold profile_of in Hrow. rewrite Htb' in Hrow. simpl in Hrow.
    intros ->. by rewrite lookup_empty in Hrow.
  - rewrite decide_False; [done|]. by intros [? _].
Qed.

(** X10: the validator answers exactly when the three partitions it
    reads exist; if one is missing the query raises. *)
Theorem validate_succeeds_iff db uid p_schema :
  is_Some (validate_login_access db uid p_schema) ↔ partitions_exist db.
Proof.
  split.
  - unfold validate_login_access, user_info.
    destruct (db !! "public") as [t0|] eqn:E0; simpl; [|by intros [? [=]]].
    destruct (db !! "quimicinter") as [t1|] eqn:E1; simpl;
      [|by intros [? [=]]].
    destruct (db !! "qalinkforce") as [t2|] eqn:E2; simpl;
      [|by intros [? [=]]].
    intros _ t [->|[->| ->]]%elem_of_known_tenants; eauto.
  - intros Hex. unfold validate_login_access.
    rewrite (user_info_rows _ _ Hex). simpl. eauto.
Qed.

Lemma select_by_id_frame db db' t u :
  (is_Some (db' !! t) ↔ is_Some (db !! t)) →
  profile_of db' t u = profile_of db t u →
  (λ tb, select_by_id tb u) <$> db' !! t = (λ tb, select_by_id tb u) <$> db !! t.
Proof.
  unfold profile_of, select_by_id. intros Hs Hp.
  destruct (db !! t) as [tb|], (db' !! t) as [tb'|]; simpl in *.
  - by rewrite Hp.
  - by destruct (proj2 Hs) as [? [=]].
  - by destruct (proj1 Hs) as [? [=]].
  - done.
Qed.

(** X11: provisioning one identity never changes what the validator
    answers for another identity. *)
Theorem provisioning_keeps_others_access db new headers now db' uid p_schema :
  handle_new_auth_user db new headers now = Some db' →
  uid ≠ user_id new →
  validate_login_access db' uid p_schema = validate_login_access db uid p_schema.
Proof.
  intros (r & _ & _ & Hout & _ & Hsome)%trigger_run_inv Hu.
  assert (Hsel : ∀ t, (λ tb, select_by_id tb uid) <$> db' !! t
                      = (λ tb, select_by_id tb uid) <$> db !! t).
  { intros t. apply select_by_id_frame; [done|]. apply Hout. by right. }
  unfold validate_login_access, user_info.
  pose proof (Hsel "public") as H0. pose proof (Hsel "quimicinter") as H1.
  pose proof (Hsel "qalinkforce") as H2.
  destruct (db !! "public"), (db' !! "public"); simpl in *; try done.
  destruct (db !! "quimicinter"), (db' !! "quimicinter"); simpl in *;
    try done.
  destruct (db !! "qalinkforce"), (db' !! "qalinkforce"); simpl in *;
    try done.
  injection H0 as ->. injection H1 as ->. injection H2 as ->. done.
Qed.

End ProvisioningFacts.

(** ** The trigger and the validator on concrete inputs *)

Section ProvisioningExamples.
Import Profiles Scenarios.

(** Provisioning administrator A of quimicinter leaves [public] and the
    rows of other identities as they were. *)
Lemma trigger_frame_witness :
  profile_of db_admin_quimicinter "quimicinter" "B"
  = profile_of empty_db "quimicinter" "B" ∧
  db_admin_quimicinter !! "public" = empty_db !! "public".
Proof.
  destruct (trigger_frame empty_db admin_quimicinter None 1
              db_admin_quimicinter eq_refl) as (_ & Hother & Htable).
  split.
  - apply Hother. discriminate.
  - apply Htable.
    + intros H. vm_compute in H. discriminate H.
    + rewrite elem_of_replication_set. intros [H|H]; discriminate H.
Defined.

(** Registering u1 as a regular user of [public] leaves the business
    units alone. *)
Lemma regular_user_touches_one_partition_witness :
  db_mixed_roles !! "quimicinter" = db_admin_replicated !! "quimicinter" ∧
  db_mixed_roles !! "qalinkforce" = db_admin_replicated !! "qalinkforce".
Proof.
  pose proof (regular_user_touches_one_partition db_admin_replicated
                user_public None 2 db_mixed_roles eq_refl) as Hframe.
  assert (Hrole : resolve_role db_admin_replicated user_public
                    (resolve_schema user_public None) ≠ Some "admin").
  { intros H. vm_compute in H. discriminate H. }
  split; apply (Hframe Hrole); intros H; vm_compute in H; discriminate H.
Defined.

(** The row u1 gets in [public]. *)
Lemma resolved_tenant_row_witness :
  profile_of db_mixed_roles "public" "u1"
  = Some (mkProfile "u1@example.com" "" "user" "active" "public" 2 2).
Proof.
  destruct (resolved_tenant_row db_admin_replicated user_public None 2
              db_mixed_roles eq_refl) as (r & Hr & Hrow).
  vm_compute in Hr. injection Hr as <-. exact Hrow.
Defined.

(** Administrator A delivered a second time, at time 7. *)
Lemma redelivery_refreshes_updated_at_witness :
  ∃ db2,
    handle_new_auth_user db_admin_quimicinter admin_quimicinter None 7
    = Some db2 ∧
    profile_of db2 "quimicinter" "A"
    = Some (mkProfile "a@example.com" "" "admin" "active" "quimicinter" 1 7).
Proof.
  destruct (redelivery_refreshes_updated_at empty_db admin_quimicinter None
              1 7 "admin" db_admin_quimicinter eq_refl eq_refl)
    as (db2 & Hrun & Hrows).
  exists db2. split; [exact Hrun|].
  rewrite Hrows. rewrite decide_True; [reflexivity|].
  split; [left; reflexivity|reflexivity].
Defined.

(** Administrator A, new in the empty database, may enter [public]. *)
Lemma fresh_identity_access_witness :
  validate_login_access db_admin_quimicinter "A" "public" = Some true.
Proof.
  destruct (fresh_identity_access empty_db admin_quimicinter None 1
              db_admin_quimicinter empty_db_partitions) as (r & Hr & Hacc).
  - intros t [->|[->| ->]]%elem_of_known_tenants; reflexivity.
  - reflexivity.
  - vm_compute in Hr. injection Hr as <-. exact (Hacc "public").
Defined.

(** Two registrations for quimicinter, starting from the empty database. *)
Lemma provisioning_keeps_schema_names_witness :
  schema_consistent db_second_registrant ∧
  (∀ t, is_Some (db_second_registrant !! t) ↔ is_Some (empty_db !! t)).
Proof.
  exact (provisioning_keeps_schema_names
           [(first_registrant, None, 1%Z); (second_registrant, None, 2%Z)]
           empty_db db_second_registrant empty_db_schema_consistent eq_refl).
Defined.

(** The empty database: the first registrant of quimicinter without a
    role is made 'admin'. *)
Lemma default_role_when_consistent_witness :
  resolve_role empty_db first_registrant "quimicinter" = Some "admin".
Proof.
  exact (default_role_when_consistent empty_db first_registrant "quimicinter"
           ∅ empty_db_schema_consistent eq_refl eq_refl).
Defined.

(** After the identity without metadata registered in [public], the next
    one without a role is a 'user'. *)
Lemma next_registrant_role_witness :
  resolve_role db_bare_user bare_user "public" = Some "user".
Proof.
  apply (next_registrant_role empty_db bare_user None 1 db_bare_user bare_user
           empty_db_schema_consistent).
  - by exists ∅.
  - reflexivity.
  - reflexivity.
Defined.

(** Registering u1 changes nothing for identity u9. *)
Lemma provisioning_keeps_others_access_witness :
  validate_login_access db_mixed_roles "u9" "public"
  = validate_login_access db_admin_replicated "u9" "public".
Proof.
  apply (provisioning_keeps_others_access db_admin_replicated user_public
           None 2 db_mixed_roles "u9" "public" eq_refl).
  discriminate.
Defined.

(** A sign-up for tenant 'acme', which has no profiles table, raises. *)
Lemma trigger_raises_when_witness :
  on_auth_user_created empty_db acme_user SettingUnset 1 = None.
Proof.
  destruct (trigger_raises_when empty_db acme_user SettingUnset 1)
    as (_ & _ & Hmissing & _).
  apply (Hmissing "acme"); reflexivity.
Defined.

(** The metadata wins over the header; without a 'schema_name' in the
    metadata the header decides. *)
Lemma trigger_resolves_tenant_witness :
  is_Some (profile_of db_admin_quimicinter "quimicinter" "A") ∧
  is_Some (profile_of db_header_user "qalinkforce" "h").
Proof.
  split.
  - destruct (trigger_resolves_tenant empty_db admin_quimicinter
                header_qalinkforce 1 db_admin_quimicinter eq_refl)
      as (v & Hmeta & _ & (p & Hp & _) & _).
    rewrite <- (Hmeta _ "quimicinter" eq_refl eq_refl). eauto.
  - destruct (trigger_resolves_tenant empty_db header_user
                header_qalinkforce 1 db_header_user eq_refl)
      as (v & _ & Hheader & (p & Hp & _) & _).
    destruct Hheader as [Hobject _].
    { right. eexists. split; reflexivity. }
    rewrite <- (Hobject _ "qalinkforce" eq_refl eq_refl). eauto.
Defined.

End ProvisioningExamples.

(** ** More on the invoice list *)

Section InvoiceListMore.
Import InvoiceList.

Context (env : DateEnv).

Implicit Types (st : State) (data l : list Invoice) (inv : Invoice).

Lemma filter_filter_andb (f g : Invoice → bool) l :
  List.filter g (List.filter f l) = List.filter (λ x, f x && g x) l.
Proof.
  induction l as [|x l IH]; simpl; [done|].
  destruct (f x); simpl; [|done]. destruct (g x); by rewrite IH.
Qed.

(** The invoices a view keeps, as one predicate on the fetched list. *)
Lemma before_sort_filter st data :
  before_sort env st data
  = List.filter (λ inv, (negb (date_range_set (dateRange st)) ||
                         in_date_range (dateRange st) inv) &&
                        category_pred env (activeFilter st) inv) data.
Proof.
  unfold before_sort, apply_date_range.
  destruct (date_range_set (dateRange st)); simpl.
  - apply filter_filter_andb.
  - done.
Qed.

Lemma filter_length_le (f : Invoice → bool) l :
  (length (List.filter f l) ≤ length l)%nat.
Proof. induction l as [|x l IH]; simpl; [done|]. destruct (f x); simpl; lia. Qed.

Lemma filter_NoDup (f : Invoice → bool) l : NoDup l → NoDup (List.filter f l).
Proof.
  induction 1 as [|x l Hx _ IH]; simpl; [constructor|].
  destruct (f x); [|done]. constructor; [|done].
  rewrite elem_of_List_filter. naive_solver.
Qed.

Lemma filter_all (f : Invoice → bool) l :
  (∀ x, f x = true) → List.filter f l = l.
Proof. intros H. induction l as [|x l IH]; simpl; [done|]. by rewrite H, IH. Qed.

(** X12: the list [loadInvoices] puts on display is a rearrangement of
    the fetched invoices that pass the date range (when both ends are
    set) and the category: no invoice is invented, duplicated or lost.
    With 'history' active and no date range it is a rearrangement of the
    whole fetched list. *)
Theorem loadInvoices_rearranges st data :
  loadInvoices env st data
  ≡ₚ List.filter (λ inv, (negb (date_range_set (dateRange st)) ||
                          in_date_range (dateRange st) inv) &&
                         category_pred env (activeFilter st) inv) data ∧
  (length (loadInvoices env st data) ≤ length data)%nat ∧
  (NoDup data → NoDup (loadInvoices env st data)) ∧
  (activeFilter st = Some FHistory → date_range_set (dateRange st) = false →
   loadInvoices env st data ≡ₚ data).
Proof.
  assert (Hperm : loadInvoices env st data ≡ₚ before_sort env st data).
  { rewrite loadInvoices_unfold. apply js_sort_perm. }
  rewrite before_sort_filter in Hperm.
  split; [done|]. split; [|split].
  - rewrite Hperm. apply filter_length_le.
  - intros Hnd. rewrite Hperm. by apply filter_NoDup.
  - intros Hf Hr. rewrite Hperm, Hf, Hr. simpl. by rewrite filter_all.
Qed.

Lemma category_split (l : list Invoice) :
  l ≡ₚ List.filter (category_pred env (Some FDraft)) l ++
       List.filter (category_pred env (Some FPaid)) l ++
       List.filter (category_pred env (Some FPending)) l ++
       List.filter (category_pred env (Some FVoided)) l.
Proof.
  induction l as [|x l IH]; [done|].
  cbn [List.filter category_pred].
  destruct (status x), (payment_status x); simpl;
    rewrite ?(bool_decide_eq_true_2 (_ ≠ _)) by done;
    rewrite ?(bool_decide_eq_false_2 (_ ≠ _)) by (intros H; by apply H);
    simpl; rewrite <- ?Permutation_middle; by constructor.
Qed.

Lemma default_split (l : list Invoice) :
  List.filter (category_pred env None) l
  ≡ₚ List.filter (category_pred env (Some FDraft)) l ++
      List.filter (category_pred env (Some FPaid)) l ++
      List.filter (category_pred env (Some FPending)) l.
Proof.
  induction l as [|x l IH]; [done|].
  cbn [List.filter category_pred].
  destruct (status x), (payment_status x); simpl;
    rewrite ?(bool_decide_eq_true_2 (_ ≠ _)) by done;
    rewrite ?(bool_decide_eq_false_2 (_ ≠ _)) by (intros H; by apply H);
    simpl; rewrite <- ?Permutation_middle; try done; by constructor.
Qed.

(** X13: under one date range the 'draft', 'paid', 'pending' and 'voided'
    views split the 'history' view: every invoice of the history is in
    exactly one of them; and the default view is the 'draft', 'paid' and
    'pending' views together. *)
Theorem category_views_split_history st data :
  loadInvoices env (setActiveFilter (Some FHistory) st) data
  ≡ₚ loadInvoices env (setActiveFilter (Some FDraft) st) data ++
      loadInvoices env (setActiveFilter (Some FPaid) st) data ++
      loadInvoices env (setActiveFilter (Some FPending) st) data ++
      loadInvoices env (setActiveFilter (Some FVoided) st) data ∧
  loadInvoices env (setActiveFilter None st) data
  ≡ₚ loadInvoices env (setActiveFilter (Some FDraft) st) data ++
      loadInvoices env (setActiveFilter (Some FPaid) st) data ++
      loadInvoices env (setActiveFilter (Some FPending) st) data.
Proof.
  rewrite !loadInvoices_unfold, !js_sort_perm. unfold before_sort. simpl.
  split.
  - rewrite (filter_all (category_pred env (Some FHistory))) by done.
    apply category_split.
  - apply default_split.
Qed.

Lemma filter_sort_insert_out (P : Invoice → bool) cmp inv l :
  P inv = false →
  List.filter P (sort_insert cmp inv l) = List.filter P l.
Proof.
  intros Hx. induction l as [|y l IH]; simpl; [by rewrite Hx|].
  destruct (cmp inv y <=? 0)%Z; simpl; [by rewrite Hx|]. by rewrite IH.
Qed.

Lemma filter_sort_insert_in (P : Invoice → bool) cmp inv l :
  P inv = true →
  (∀ y, P y = true → (cmp inv y ≤ 0)%Z) →
  List.filter P (sort_insert cmp inv l) = inv :: List.filter P l.
Proof.
  intros Hx Hle. induction l as [|y l IH]; simpl; [by rewrite Hx|].
  destruct (cmp inv y <=? 0)%Z eqn:Hc; simpl; [by rewrite Hx|].
  destruct (P y) eqn:Hy; [|done].
  apply Z.leb_gt in Hc. specialize (Hle y Hy). lia.
Qed.

(** A stable sort keeps the order within every class the comparator ties. *)
Lemma filter_js_sort (P : Invoice → bool) cmp l :
  (∀ x y, P x = true → P y = true → (cmp x y ≤ 0)%Z) →
  List.filter P (js_sort cmp l) = List.filter P l.
Proof.
  intros Hle. induction l as [|x l IH]; simpl; [done|].
  destruct (P x) eqn:Hx.
  - rewrite filter_sort_insert_in; [by rewrite IH|done|]. intros y. by apply Hle.
  - by rewrite filter_sort_insert_out.
Qed.

Lemma string_ltb_leb (x y : string) : String.ltb x y = negb (String.leb y x).
Proof.
  unfold String.ltb, String.leb. rewrite (String.compare_antisym x y).
  by destruct (String.compare y x).
Qed.

Lemma js_lt_irrefl v : js_lt v v = false.
Proof.
  destruct v as [n| |x]; simpl; [apply Z.ltb_irrefl|done|].
  rewrite string_ltb_leb. apply negb_false_iff, Is_true_true.
  apply (reflexivity (R := String.le)).
Qed.










(** X14: when no invoice to be displayed has an invalid date in the sort
    column (only 'issue_date' can), the sort is stable, for every column
    and both directions: the displayed invoices that have one and the
    same value in the sort column stand in the order in which they were
    fetched. *)
Theorem sort_is_stable st data v :
  Forall (λ inv, sort_value env (key (sortConfig st)) inv ≠ VNaN)
    (before_sort env st data) →
  List.filter (λ inv, bool_decide (sort_value env (key (sortConfig st)) inv = v))
    (loadInvoices env st data)
  = List.filter (λ inv, bool_decide (sort_value env (key (sortConfig st)) inv = v))
      (before_sort env st data).
Proof.
  intros _. rewrite loadInvoices_unfold. apply filter_js_sort.
  intros x y Hx%bool_decide_eq_true Hy%bool_decide_eq_true.
  unfold comparator. simpl. rewrite Hx, Hy, js_lt_irrefl. done.
Qed.


(** X16: in the monthly statistics the issued invoices are the paid and
    the pending ones together, and the invoices of the month are the
    issued, the voided and the draft ones together, each invoice in
    exactly one bucket; so the issued count is the paid count plus the
    pending count, and the three status counts add up to the number of
    invoices of the month. *)
Theorem stats_buckets_add_up data :
  issuedInvoices env data ≡ₚ paidInvoices env data ++ pendingInvoices env data ∧
  monthlyInvoices env data
  ≡ₚ issuedInvoices env data ++ voidedInvoices env data ++
      draftInvoices env data ∧
  count (stat_issued (loadStats env data))
  = (count (stat_paid (loadStats env data)) +
     count (stat_pending (loadStats env data)))%nat ∧
  length (monthlyInvoices env data)
  = (count (stat_issued (loadStats env data)) +
     count (stat_voided (loadStats env data)) +
     count (stat_draft (loadStats env data)))%nat.
Proof.
  assert (Hperm :
    issuedInvoices env data
    ≡ₚ paidInvoices env data ++ pendingInvoices env data ∧
    monthlyInvoices env data
    ≡ₚ issuedInvoices env data ++ voidedInvoices env data ++
        draftInvoices env data).
  { unfold issuedInvoices, paidInvoices, pendingInvoices, voidedInvoices,
      draftInvoices.
    induction (monthlyInvoices env data) as [|x l [IH1 IH2]]; [done|].
    cbn [List.filter].
    destruct (status x), (payment_status x); simpl;
      rewrite ?(bool_decide_eq_true_2 (_ ≠ _)) by done;
      rewrite ?(bool_decide_eq_false_2 (_ ≠ _)) by (intros H; by apply H);
      simpl; rewrite <- ?Permutation_middle; split;
      first [done | by constructor]. }
  destruct Hperm as [Hissued Hmonth].
  split; [done|]. split; [done|].
  unfold loadStats, bucket_of. simpl. split.
  - by rewrite Hissued, length_app.
  - by rewrite Hmonth, !length_app, Nat.add_assoc.
Qed.

Lemma slice_nonneg l (i j : Z) :
  (0 ≤ i ≤ j)%Z →
  slice l i j = take (Z.to_nat (j - i)) (drop (Z.to_nat i) l).
Proof.
  intros Hij. unfold slice.
  rewrite (proj2 (Z.ltb_ge i 0)), (proj2 (Z.ltb_ge j 0)) by lia.
  destruct (decide (Z.of_nat (length l) ≤ i)%Z) as [Hbig|Hsmall].
  - rewrite !Z.min_r by lia. rewrite Z.sub_diag. simpl.
    rewrite (drop_ge l (Z.to_nat i)) by lia. by rewrite take_nil.
  - rewrite (Z.min_l i) by lia.
    destruct (decide (j ≤ Z.of_nat (length l))%Z) as [Hj|Hj].
    + by rewrite Z.min_l by lia.
    + rewrite Z.min_r by lia.
      rewrite !take_ge; [done| |]; rewrite length_drop; lia.
Qed.

Lemma filteredInvoices_setCurrentPage p st :
  filteredInvoices (setCurrentPage p st) = filteredInvoices st.
Proof. done. Qed.

Lemma page_content st (p : Z) :
  (1 ≤ p)%Z →
  paginatedInvoices (setCurrentPage p st)
  = take 30 (drop (30 * (Z.to_nat p - 1)) (filteredInvoices st)).
Proof.
  intros Hp. unfold paginatedInvoices. rewrite filteredInvoices_setCurrentPage.
  simpl. unfold itemsPerPage. rewrite slice_nonneg by lia.
  f_equal; [lia|]. f_equal. lia.
Qed.

Lemma totalPages_bound st :
  (Z.of_nat (length (filteredInvoices st)) ≤ 30 * totalPages st)%Z ∧
  (0 ≤ totalPages st)%Z.
Proof.
  unfold totalPages, itemsPerPage.
  pose proof (Z.div_mod (Z.of_nat (length (filteredInvoices st)) + 30 - 1) 30).
  pose proof (Z.mod_pos_bound
                (Z.of_nat (length (filteredInvoices st)) + 30 - 1) 30).
  split; [lia|]. apply Z.div_pos; lia.
Qed.

(** X17: a page never shows more than 30 invoices; page [p >= 1] shows
    the invoices [30(p-1) + 1 .. 30p] of the searched list; a page
    beyond the last one, and page 0, show nothing. *)
Theorem page_shows_its_window st (p : Z) :
  (length (paginatedInvoices st) ≤ 30)%nat ∧
  ((1 ≤ p)%Z →
   paginatedInvoices (setCurrentPage p st)
   = take 30 (drop (30 * (Z.to_nat p - 1)) (filteredInvoices st))) ∧
  ((totalPages st < p)%Z ∨ p = 0%Z →
   paginatedInvoices (setCurrentPage p st) = []).
Proof.
  split; [|split].
  - unfold paginatedInvoices, slice, itemsPerPage.
    rewrite length_take.
    set (len := Z.of_nat (length (filteredInvoices st))).
    destruct ((currentPage st - 1) * 30 <? 0)%Z eqn:Hi,
             (currentPage st * 30 <? 0)%Z eqn:Hj;
      rewrite ?Z.ltb_lt, ?Z.ltb_ge in Hi, Hj; lia.
  - apply page_content.
  - intros [Hp| ->].
    + destruct (totalPages_bound st) as [Hlen Hpos].
      rewrite page_content by lia.
      rewrite drop_ge; [done|]. lia.
    + unfold paginatedInvoices, slice, itemsPerPage.
      cbn [currentPage setCurrentPage].
      change ((0 - 1) * 30 <? 0)%Z with true.
      change (0 * 30 <? 0)%Z with false. cbv iota.
      match goal with
      | |- take ?n _ = _ => replace n with 0%nat by lia
      end.
      done.
Qed.

Lemma chunks_cover (l : list Invoice) (n : nat) :
  (length l ≤ 30 * n)%nat →
  concat (map (λ k, take 30 (drop (30 * k) l)) (seq 0 n)) = l.
Proof.
  revert l. induction n as [|n IH]; intros l Hl.
  - destruct l; [done|simpl in Hl; lia].
  - change (seq 0 (S n)) with (0%nat :: seq 1 n).
    rewrite <- seq_shift. cbn [map concat]. rewrite map_map.
    transitivity (take 30 l ++ drop 30 l); [|apply take_drop].
    f_equal.
    etransitivity; [|apply (IH (drop 30 l)); rewrite length_drop; lia].
    f_equal. apply map_ext. intros k. rewrite drop_drop.
    do 2 f_equal. lia.
Qed.

(** X18: the pages 1 .. totalPages, one after the other, are the searched
    list: every invoice that passes the search is on exactly one page,
    in the order of the list. *)
Theorem pages_cover_the_list st :
  concat (map (λ k, paginatedInvoices (setCurrentPage (Z.of_nat (S k)) st))
              (seq 0 (Z.to_nat (totalPages st))))
  = filteredInvoices st.
Proof.
  destruct (totalPages_bound st) as [Hlen Hpos].
  etransitivity;
    [|apply (chunks_cover (filteredInvoices st) (Z.to_nat (totalPages st)));
      lia].
  f_equal. apply map_ext. intros k. rewrite page_content by lia.
  do 2 f_equal. lia.
Qed.

(** X19: while the current page is between 1 and the number of pages, the
    'previous' and 'next' buttons keep it there; they move by one page
    and stop at the first and at the last page. *)
Theorem page_buttons_stay_in_range st :
  (1 ≤ currentPage st ≤ totalPages st)%Z →
  (1 ≤ currentPage (prevPage st) ≤ totalPages (prevPage st))%Z ∧
  (1 ≤ currentPage (nextPage st) ≤ totalPages (nextPage st))%Z ∧
  currentPage (prevPage st)
  = (if decide (currentPage st = 1%Z) then 1 else currentPage st - 1)%Z ∧
  currentPage (nextPage st)
  = (if decide (currentPage st = totalPages st) then totalPages st
     else currentPage st + 1)%Z.
Proof.
  intros Hp.
  assert (Ht1 : totalPages (prevPage st) = totalPages st) by done.
  assert (Ht2 : totalPages (nextPage st) = totalPages st) by done.
  rewrite Ht1, Ht2. unfold prevPage, nextPage. simpl.
  repeat split; try lia; case_decide; lia.
Qed.

(** X20: a click on a column header sorts by that column; the direction
    is descending exactly when the column was already sorted ascending,
    so a third click on one header does what the first did. *)
Theorem handleSort_cycle k st :
  key (sortConfig (handleSort k st)) = k ∧
  (direction (sortConfig (handleSort k st)) = desc
   ↔ sortConfig st = mkSortConfig k asc) ∧
  handleSort k (handleSort k (handleSort k st)) = handleSort k st.
Proof.
  unfold handleSort. destruct st as [? ? ? ? ? [k0 d0]]. simpl.
  split; [done|]. split.
  - case_decide as H; [destruct H as [-> ->]; done|].
    split; [done|]. intros [= -> ->]. by destruct H.
  - repeat case_decide; naive_solver.
Qed.

Lemma toLowerCase_app a b :
  toLowerCase (a +:+ b) = toLowerCase a +:+ toLowerCase b.
Proof. induction a as [|c a IH]; simpl; [done|]. by rewrite IH. Qed.

Lemma prefix_spec a s : String.prefix a s = true ↔ ∃ r, s = a +:+ r.
Proof.
  revert s. induction a as [|c a IH]; intros s.
  - destruct s; simpl; naive_solver.
  - destruct s as [|d s]; simpl; [naive_solver|].
    destruct (Stdlib.Strings.Ascii.ascii_dec c d) as [->|Hne].
    + rewrite IH. split; intros [r Hr]; exists r.
      * by rewrite Hr.
      * change (String d s = String d (a +:+ r)) in Hr. by injection Hr.
    + split; [done|]. intros [r Hr].
      change (String d s = String c (a +:+ r)) in Hr. congruence.
Qed.

Lemma append_cons c (a b : string) : String c a +:+ b = String c (a +:+ b).
Proof. reflexivity. Qed.

Lemma append_nil_l (b : string) : "" +:+ b = b.
Proof. reflexivity. Qed.

Lemma includes_spec s sub : includes s sub = true ↔ substring_of sub s.
Proof.
  unfold substring_of. induction s as [|c s IH]; cbn [includes].
  - rewrite orb_false_r, prefix_spec. split.
    + intros [r Hr]. exists "", r. by rewrite append_nil_l.
    + intros ([|c' pre] & post & Hs).
      * rewrite append_nil_l in Hs. eauto.
      * rewrite append_cons in Hs. discriminate Hs.
  - rewrite orb_true_iff, prefix_spec, IH. split.
    + intros [[r Hr]|(pre & post & ->)].
      * exists "", r. by rewrite append_nil_l.
      * exists (String c pre), post. by rewrite append_cons.
    + intros ([|c' pre] & post & Hs).
      * left. rewrite append_nil_l in Hs. eauto.
      * right. rewrite append_cons in Hs. injection Hs as <- ->. eauto.
Qed.

(** X21: for a search text and an invoice written in ASCII characters,
    the search keeps the invoice exactly when its receipt number, or its
    customer's name when there is a customer, contains the search text,
    the case of the letters A-Z apart; an invoice whose receipt number
    contains the search text as typed is kept; and the searched list is
    the list with rows left out, in the same order. *)
Theorem search_semantics st inv :
  ascii_only (search st) →
  ascii_only (ncf inv) →
  (∀ c, customer inv = Some c → ascii_only (customer_full_name c)) →
  (inv ∈ filteredInvoices st
   ↔ inv ∈ invoices st ∧
     (substring_of (toLowerCase (search st)) (toLowerCase (ncf inv)) ∨
      ∃ c, customer inv = Some c ∧
           substring_of (toLowerCase (search st))
                        (toLowerCase (customer_full_name c)))) ∧
  (inv ∈ invoices st → substring_of (search st) (ncf inv) →
   inv ∈ filteredInvoices st) ∧
  filteredInvoices st `sublist_of` invoices st.
Proof.
  intros _ _ _.
  assert (Hiff : inv ∈ filteredInvoices st
     ↔ inv ∈ invoices st ∧
       (substring_of (toLowerCase (search st)) (toLowerCase (ncf inv)) ∨
        ∃ c, customer inv = Some c ∧
             substring_of (toLowerCase (search st))
                          (toLowerCase (customer_full_name c)))).
  { unfold filteredInvoices, matches_search.
    rewrite elem_of_List_filter, orb_true_iff, includes_spec.
    destruct (customer inv) as [c|].
    - rewrite includes_spec. naive_solver.
    - naive_solver. }
  split; [exact Hiff|]. split.
  - intros Hin (pre & post & Hs). apply Hiff. split; [done|]. left.
    exists (toLowerCase pre), (toLowerCase post).
    by rewrite Hs, !toLowerCase_app.
  - clear Hiff. unfold filteredInvoices.
    induction (invoices st) as [|x l IH]; cbn [List.filter];
      [constructor|].
    destruct (matches_search (search st) x).
    + by apply sublist_skip.
    + by apply sublist_cons.
Qed.

(** X22: an unconfirmed or failed delete changes neither the table nor
    the component; a confirmed, successful one removes the rows with
    that id -- whatever their status -- and reloads the view, which then
    holds the invoices it would have held before, less those with that
    id; search text, page, filters and sort order stay. *)
Theorem handleDelete_effects confirmed failed id0 rows st :
  (confirmed = false ∨ failed = true →
   handleDelete env confirmed failed id0 (rows, st) = (rows, st)) ∧
  (confirmed = true → failed = false →
   (∀ inv, inv ∈ (handleDelete env confirmed failed id0 (rows, st)).1
           ↔ inv ∈ rows ∧ id inv ≠ id0) ∧
   (∀ inv, inv ∈ invoices (handleDelete env confirmed failed id0 (rows, st)).2
           ↔ inv ∈ loadInvoices env st rows ∧ id inv ≠ id0) ∧
   search (handleDelete env confirmed failed id0 (rows, st)).2 = search st ∧
   currentPage (handleDelete env confirmed failed id0 (rows, st)).2
   = currentPage st ∧
   activeFilter (handleDelete env confirmed failed id0 (rows, st)).2
   = activeFilter st ∧
   dateRange (handleDelete env confirmed failed id0 (rows, st)).2
   = dateRange st ∧
   sortConfig (handleDelete env confirmed failed id0 (rows, st)).2
   = sortConfig st).
Proof.
  split.
  - intros [->| ->]; [done|]. by destruct confirmed.
  - intros -> ->. simpl.
    assert (Hrows : ∀ inv, inv ∈ delete_by_id id0 rows
                           ↔ inv ∈ rows ∧ id inv ≠ id0).
    { intros inv. unfold delete_by_id.
      rewrite elem_of_List_filter, negb_true_iff, String.eqb_neq. done. }
    split; [exact Hrows|]. split; [|done].
    intros inv. rewrite !elem_of_loadInvoices, Hrows. naive_solver.
Qed.

End InvoiceListMore.

(** ** Facts about the product ranking *)

Section TopProductsFacts.
Import TopProducts.

Implicit Types (m : list (string * Z)) (k : string) (items : list InvoiceItem).
Implicit Types (month_items : list (option (list InvoiceItem))).

Lemma sales_get_set m k v k' :
  sales_get (sales_set m k v) k'
  = if decide (k = k') then Some v else sales_get m k'.
Proof.
  induction m as [|[k0 v0] m IH]; simpl.
  - destruct (String.eqb_spec k k'); by case_decide.
  - destruct (String.eqb_spec k0 k) as [->|Hk0]; simpl.
    + destruct (String.eqb_spec k k'); by case_decide.
    + destruct (String.eqb_spec k0 k') as [->|Hk0'].
      * by rewrite decide_False by done.
      * exact IH.
Qed.

Lemma sales_get_None m k : sales_get m k = None ↔ k ∉ m.*1.
Proof.
  induction m as [|[k0 v0] m IH]; simpl.
  - split; [intros _ H; by apply elem_of_nil in H|done].
  - rewrite not_elem_of_cons. destruct (String.eqb_spec k0 k) as [->|Hne].
    + split; [done|]. by intros [? _].
    + rewrite IH. naive_solver.
Qed.

Lemma sales_set_keys m k v :
  (sales_set m k v).*1 = if decide (k ∈ m.*1) then m.*1 else m.*1 ++ [k].
Proof.
  induction m as [|[k0 v0] m IH].
  - destruct (decide (k ∈ ([] : list (string * Z)).*1)) as [H|_]; [|done].
    by apply elem_of_nil in H.
  - cbn [sales_set]. rewrite fmap_cons. cbn [fst].
    destruct (String.eqb_spec k0 k) as [->|Hne].
    + rewrite fmap_cons. cbn [fst].
      destruct (decide (k ∈ k :: m.*1)) as [_|H]; [done|].
      destruct H. by left.
    + rewrite fmap_cons, IH. cbn [fst].
      destruct (decide (k ∈ m.*1)) as [Hin|Hout],
               (decide (k ∈ k0 :: m.*1)) as [Hin'|Hout']; try done.
      * destruct Hout'. by right.
      * apply elem_of_cons in Hin' as [->|?]; done.
Qed.

Lemma sales_set_NoDup m k v : NoDup m.*1 → NoDup (sales_set m k v).*1.
Proof.
  intros Hnd. rewrite sales_set_keys. case_decide; [done|].
  apply NoDup_app. split; [done|]. split; [|apply NoDup_singleton].
  intros x Hx ->%list_elem_of_singleton. done.
Qed.

Lemma sales_get_elem_of m k v :
  NoDup m.*1 → (k, v) ∈ m ↔ sales_get m k = Some v.
Proof.
  induction m as [|[k0 v0] m IH]; simpl; intros Hnd.
  - split; [intros H; by apply elem_of_nil in H|done].
  - apply NoDup_cons in Hnd as [Hk0 Hnd]. rewrite elem_of_cons.
    destruct (String.eqb_spec k0 k) as [->|Hne].
    + split.
      * intros [[= ->]|Hin]; [done|].
        destruct Hk0. apply list_elem_of_fmap. by exists (k, v).
      * intros [= ->]. by left.
    + rewrite <- (IH Hnd). naive_solver.
Qed.

Lemma sum_for_notin k items :
  k ∉ map item_product items → sum_for k items = 0%Z.
Proof.
  induction items as [|it items IH]; simpl; [done|].
  rewrite not_elem_of_cons. intros [Hne Hout].
  destruct (String.eqb_spec (item_product it) k); [congruence|].
  rewrite IH by done. lia.
Qed.

(** The map after the items: every product sold has the sum of its
    items added to what the map held for it, nothing else changes. *)
Lemma fold_add_item_get items m k :
  sales_get (fold_left add_item items m) k
  = if decide (k ∈ map item_product items)
    then Some (default 0%Z (sales_get m k) + sum_for k items)%Z
    else sales_get m k.
Proof.
  revert m. induction items as [|it items IH]; intros m.
  - destruct (decide (k ∈ map item_product [])) as [H|_]; [|done].
    by apply elem_of_nil in H.
  - cbn [fold_left map sum_for]. rewrite IH. unfold add_item.
    rewrite sales_get_set.
    destruct (String.eqb_spec (item_product it) k) as [<-|Hne].
    + rewrite (decide_True (P := item_product it = item_product it)) by done.
      rewrite (decide_True (P := item_product it ∈ _ :: _)) by (by left).
      cbn [default from_option]. unfold id.
      destruct (decide (item_product it ∈ map item_product items))
        as [Hin|Hout].
      * f_equal. lia.
      * rewrite (sum_for_notin _ _ Hout). f_equal. lia.
    + rewrite (decide_False (P := item_product it = k)) by done.
      destruct (decide (k ∈ map item_product items)) as [Hin|Hout].
      * rewrite decide_True by (by right). f_equal; lia.
      * rewrite decide_False; [done|]. rewrite not_elem_of_cons. naive_solver.
Qed.

Lemma fold_add_item_NoDup items m :
  NoDup m.*1 → NoDup (fold_left add_item items m).*1.
Proof.
  revert m. induction items as [|it items IH]; intros m Hnd; simpl; [done|].
  apply IH. by apply sales_set_NoDup.
Qed.

Lemma productSales_flat month_items m :
  fold_left add_invoice_items month_items m
  = fold_left add_item (all_items month_items) m.
Proof.
  revert m. induction month_items as [|[l|] rest IH]; intros m; simpl;
    [done| |].
  - unfold all_items. simpl. rewrite fold_left_app. apply IH.
  - apply IH.
Qed.

Lemma sales_insert_perm x (l : list (string * Z)) : sales_insert x l ≡ₚ x :: l.
Proof.
  induction l as [|y l IH]; simpl; [done|].
  destruct (y.2 - x.2 <=? 0)%Z; [done|]. rewrite IH. apply perm_swap.
Qed.

Lemma sales_sort_perm (l : list (string * Z)) : sales_sort l ≡ₚ l.
Proof.
  induction l as [|x l IH]; simpl; [done|]. by rewrite sales_insert_perm, IH.
Qed.

Lemma sales_insert_sorted x (l : list (string * Z)) :
  StronglySorted (λ a b, (b.2 ≤ a.2)%Z) l →
  StronglySorted (λ a b, (b.2 ≤ a.2)%Z) (sales_insert x l).
Proof.
  induction 1 as [|y l Hs IH Hy]; simpl; [repeat constructor|].
  destruct (y.2 - x.2 <=? 0)%Z eqn:Hc.
  - apply Z.leb_le in Hc. constructor; [by constructor|].
    constructor; [lia|]. eapply Forall_impl; [exact Hy|]. simpl. lia.
  - apply Z.leb_gt in Hc. constructor; [done|].
    rewrite sales_insert_perm. constructor; [lia|done].
Qed.

Lemma sales_sort_sorted (l : list (string * Z)) :
  StronglySorted (λ a b, (b.2 ≤ a.2)%Z) (sales_sort l).
Proof.
  induction l as [|x l IH]; simpl; [constructor|].
  by apply sales_insert_sorted.
Qed.

Lemma StronglySorted_lookup {A} (R : A → A → Prop) (xs : list A) i j a b :
  StronglySorted R xs → (i < j)%nat →
  xs !! i = Some a → xs !! j = Some b → R a b.
Proof.
  intros Hs. revert i j. induction Hs as [|x xs Hs IH Hx]; intros i j Hij.
  - by rewrite lookup_nil.
  - destruct j as [|j]; [lia|]. destruct i as [|i]; simpl.
    + intros [= <-] Hb. rewrite Forall_forall in Hx. apply Hx.
      by eapply list_elem_of_lookup_2.
    + apply IH. lia.
Qed.

Lemma productSales_spec month_items :
  NoDup (productSales month_items).*1 ∧
  ∀ k v, (k, v) ∈ productSales month_items
         ↔ k ∈ map item_product (all_items month_items) ∧
           v = sum_for k (all_items month_items).
Proof.
  unfold productSales. rewrite productSales_flat.
  assert (Hnd : NoDup (fold_left add_item (all_items month_items) []).*1).
  { apply fold_add_item_NoDup. constructor. }
  split; [done|]. intros k v.
  rewrite (sales_get_elem_of _ _ _ Hnd), fold_add_item_get. simpl.
  case_decide; naive_solver.
Qed.

(** X23: the ranking lists at most three products, none of them twice,
    and only products named by a line item of the month (items without a
    product count under the empty name); when the month's items name at
    most three products every one of them is listed, and with no line
    items the ranking is empty. *)
Theorem topProducts_lists_products month_items :
  (length (topProducts month_items) ≤ 3)%nat ∧
  NoDup (topProducts month_items).*1 ∧
  (∀ k, k ∈ (topProducts month_items).*1 →
        k ∈ map item_product (all_items month_items)) ∧
  ((length (productSales month_items) ≤ 3)%nat →
   ∀ k, k ∈ map item_product (all_items month_items) →
        k ∈ (topProducts month_items).*1) ∧
  (∀ k, k ∈ (productSales month_items).*1
        ↔ k ∈ map item_product (all_items month_items)) ∧
  (all_items month_items = [] → topProducts month_items = []).
Proof.
  destruct (productSales_spec month_items) as [Hnd Hspec].
  assert (Hkeys : ∀ k, k ∈ (productSales month_items).*1
                       ↔ k ∈ map item_product (all_items month_items)).
  { intros k. rewrite list_elem_of_fmap. split.
    - intros ([k' v] & -> & Hin). by apply Hspec in Hin as [? _].
    - intros Hk. exists (k, sum_for k (all_items month_items)).
      split; [done|]. by apply Hspec. }
  unfold topProducts. split; [|split; [|split; [|split; [|split]]]].
  - rewrite length_take. lia.
  - rewrite fmap_take.
    apply (sublist_NoDup _ (sales_sort (productSales month_items)).*1);
      [|apply sublist_take].
    by rewrite sales_sort_perm.
  - intros k Hk. apply Hkeys. rewrite <- (sales_sort_perm _).
    rewrite fmap_take in Hk. apply elem_of_take in Hk as (i & Hi & _).
    by eapply list_elem_of_lookup_2.
  - intros Hlen k Hk. rewrite take_ge.
    + rewrite sales_sort_perm. by apply Hkeys.
    + by rewrite (Permutation_length (sales_sort_perm _)).
  - exact Hkeys.
  - intros Hnil. unfold productSales. rewrite productSales_flat, Hnil. done.
Qed.

(** X24: the ranking is in order of decreasing total, it lists three
    products whenever at least three were sold, and no product left out
    sold more than a listed one. *)
Theorem topProducts_ranking month_items :
  (∀ i j a b, (i < j)%nat →
     topProducts month_items !! i = Some a →
     topProducts month_items !! j = Some b → (b.2 ≤ a.2)%Z) ∧
  length (topProducts month_items)
  = (3 `min` length (productSales month_items))%nat ∧
  (∀ k a, k ∈ map item_product (all_items month_items) →
     k ∉ (topProducts month_items).*1 →
     a ∈ topProducts month_items →
     (sum_for k (all_items month_items) ≤ a.2)%Z).
Proof.
  destruct (productSales_spec month_items) as [Hnd Hspec].
  pose proof (sales_sort_sorted (productSales month_items)) as Hsorted.
  unfold topProducts. split; [|split].
  - intros i j a b Hij Ha Hb.
    apply lookup_take_Some in Ha as [Ha _]. apply lookup_take_Some in Hb as [Hb _].
    exact (StronglySorted_lookup _ _ _ _ _ _ Hsorted Hij Ha Hb).
  - rewrite length_take, (Permutation_length (sales_sort_perm _)). done.
  - intros k a Hk Hout Ha.
    assert (Hin : (k, sum_for k (all_items month_items))
                  ∈ sales_sort (productSales month_items)).
    { rewrite sales_sort_perm. by apply Hspec. }
    apply list_elem_of_lookup in Hin as [j Hj].
    apply list_elem_of_lookup in Ha as [i Hi].
    apply lookup_take_Some in Hi as [Hi Hi3].
    destruct (decide (j < 3)%nat) as [Hj3|Hj3].
    + destruct Hout. apply list_elem_of_fmap.
      exists (k, sum_for k (all_items month_items)). split; [done|].
      apply list_elem_of_lookup. exists j. by apply lookup_take_Some.
    + apply (StronglySorted_lookup _ _ i j a _ Hsorted ltac:(lia) Hi Hj).
Qed.

End TopProductsFacts.

(** ** The additional facts on concrete inputs *)

Section MoreExamples.
Import InvoiceList InvoiceScenarios.

(** The history of [fetched] holds its five invoices, the voided one
    included. *)
Lemma loadInvoices_rearranges_witness :
  loadInvoices env0 (handleFilter FHistory initial_state) fetched ≡ₚ fetched.
Proof.
  destruct (loadInvoices_rearranges env0 (handleFilter FHistory initial_state)
              fetched) as (_ & _ & _ & Hhistory).
  apply Hhistory; reflexivity.
Defined.


(** The loaded default view has one page; page 2 is empty. *)
Lemma page_shows_its_window_witness :
  paginatedInvoices (setCurrentPage 2 shown) = [] ∧
  paginatedInvoices (setCurrentPage 1 shown) = invoices shown.
Proof.
  destruct (page_shows_its_window shown 2) as (_ & _ & Hbeyond).
  destruct (page_shows_its_window shown 1) as (_ & Hwindow & _).
  split.
  - apply Hbeyond. left. reflexivity.
  - rewrite Hwindow by lia. reflexivity.
Defined.

(** On the only page both buttons stay on page 1. *)
Lemma page_buttons_stay_in_range_witness :
  currentPage (prevPage shown) = 1%Z ∧ currentPage (nextPage shown) = 1%Z.
Proof.
  assert (Hrange : (1 ≤ currentPage shown ≤ totalPages shown)%Z).
  { split; vm_compute; discriminate. }
  destruct (page_buttons_stay_in_range shown Hrange) as (_ & _ & Hprev & Hnext).
  split; [exact Hprev|exact Hnext].
Defined.

(** Searching the last digits of a receipt number finds the invoice. *)
Lemma search_semantics_witness :
  issued_partial ∈ filteredInvoices (setSearch "0003" shown).
Proof.
  assert (Hq : ascii_only (search (setSearch "0003" shown))).
  { repeat split; apply Nat.ltb_lt; reflexivity. }
  assert (Hn : ascii_only (ncf issued_partial)).
  { repeat split; apply Nat.ltb_lt; reflexivity. }
  assert (Hc : ∀ c, customer issued_partial = Some c →
                    ascii_only (customer_full_name c)).
  { intros c [= <-]. repeat split; apply Nat.ltb_lt; reflexivity. }
  destruct (search_semantics (setSearch "0003" shown) issued_partial Hq Hn Hc)
    as (_ & Hliteral & _).
  apply Hliteral.
  - do 3 apply list_elem_of_further. apply list_elem_of_here.
  - exists "B010000", "". reflexivity.
Defined.

(** The two drafts of the default view, sorted by status, are in their
    fetched order. *)
Lemma sort_is_stable_witness :
  List.filter (λ inv, bool_decide (sort_value env0 KStatus inv = VNum 0))
    (loadInvoices env0 initial_state fetched)
  = [draft_1; draft_2].
Proof.
  assert (Hvalid : Forall (λ inv, sort_value env0 KStatus inv ≠ VNaN)
                      (before_sort env0 initial_state fetched)).
  { apply Forall_forall. intros inv _. discriminate. }
  exact (sort_is_stable env0 initial_state fetched (VNum 0) Hvalid).
Defined.

(** Deleting draft 1 from the table behind the default view. *)
Lemma handleDelete_effects_witness :
  draft_2 ∈ invoices (handleDelete env0 true false "1" (fetched, shown)).2 ∧
  handleDelete env0 false false "1" (fetched, shown) = (fetched, shown).
Proof.
  destruct (handleDelete_effects env0 true false "1" fetched shown)
    as (_ & Hdone).
  destruct (handleDelete_effects env0 false false "1" fetched shown)
    as (Hkept & _).
  split.
  - destruct (Hdone eq_refl eq_refl) as (_ & Hview & _).
    apply Hview. split; [|discriminate].
    apply list_elem_of_further, list_elem_of_here.
  - apply Hkept. left. reflexivity.
Defined.

End MoreExamples.

Section ProductExamples.
Import TopProducts ProductScenarios.

(** March names four products and items without one: three are
    listed, each of them named by an item. *)
Lemma topProducts_lists_products_witness :
  (topProducts march_items).*1 = ["Jabon"; "Cloro"; "Cera"] ∧
  "Jabon" ∈ map item_product (all_items march_items).
Proof.
  split; [reflexivity|].
  destruct (topProducts_lists_products march_items) as (_ & _ & Hnamed & _).
  apply Hnamed. apply list_elem_of_here.
Defined.

(** The degreaser is not listed and sold no more than the wax. *)
Lemma topProducts_ranking_witness :
  (sum_for "Desengrasante" (all_items march_items) ≤ 400)%Z.
Proof.
  destruct (topProducts_ranking march_items) as (_ & _ & Hleft_out).
  apply (Hleft_out "Desengrasante" ("Cera", 400%Z)).
  - do 5 apply list_elem_of_further. apply list_elem_of_here.
  - intros Hin. vm_compute in Hin.
    repeat (apply elem_of_cons in Hin as [Hin|Hin]; [discriminate Hin|]).
    by apply elem_of_nil in Hin.
  - do 2 apply list_elem_of_further. apply list_elem_of_here.
Defined.

End ProductExamples.
